(** * Cloud-free mosaic tasks: a shallow embedding of
      [apps/sample_geo_app/tasks.py]

    The development follows the layout of the Python module:

    - [Combine]      the three chunk combination methods
                     ([fill_nodata], [max_value], [min_value]);
    - [Options]      the table [processing_algorithms];
    - [Chunk]        the chunk worker [generate_TOOL_chunk];
    - [Orchestrator] the query task [create_cloudfree_mosaic] together with
                     [error_with_message];
    - [CombineExamples], [ChunkExamples], [OrchestratorExamples]
                     concrete datasets, chunk runs and query runs;
    - [CombineFacts], [ChunkFacts], [OrchestratorFacts]
                     the lemmas and the theorems.

    Python exceptions are modelled by [option] (pure helpers) or by an
    explicit [Raised] outcome (tasks); database rows, the scratch directory
    and the files written are explicit state or an event trace.  The
    [while] loop of the worker takes fuel; with a positive stride the
    length of the acquisition list is enough of it. *)

From Stdlib Require Import QArith.
From stdpp Require Import gmap strings list fin_maps pretty sorting.

Open Scope Z_scope.

(** ** numpy arrays and xarray datasets *)

(** A band value: a number or NaN.  The reflectance bands are stored as
    int16; the criterion band [ndvi] is a float ratio, which is NaN where it
    is [0 / 0].  The combination methods only compare and copy the values, so
    the numbers are taken to be integers: numbers that compare equal are one
    value, and the values of finitely many datasets, the infinities among
    them, keep their order when they are numbered. *)
Inductive value := Num (z : Z) | NaN.

Global Instance value_eq_dec : EqDecision value.
Proof. solve_decision. Defined.

(** numpy's [>], [<] and [==] on two values: [False] as soon as one of them
    is NaN. *)
Definition value_gtb (x y : value) : bool :=
  match x, y with
  | Num a, Num b => Z.gtb a b
  | _, _ => false
  end.

Definition value_ltb (x y : value) : bool :=
  match x, y with
  | Num a, Num b => Z.ltb a b
  | _, _ => false
  end.

Definition value_eqb (x y : value) : bool :=
  match x, y with
  | Num a, Num b => Z.eqb a b
  | _, _ => false
  end.

(** An [ndarray] is a shape and its row-major buffer. *)
Record ndarray (A : Type) := NdArray { shape : nat * nat; values : list A }.
Arguments NdArray {A} _ _.
Arguments shape {A} _.
Arguments values {A} _.

Definition wf_array {A} (a : ndarray A) : Prop :=
  length (values a) = (fst (shape a) * snd (shape a))%nat.

(** [a > b], [a < b] on arrays of one shape.  Operands of different shapes
    are an error of the model (numpy's broadcasting is not modelled). *)
Definition np_compare (cmp : value → value → bool) (a b : ndarray value)
  : option (ndarray bool) :=
  if decide (shape a = shape b)
  then Some (NdArray (shape a) (zip_with cmp (values a) (values b)))
  else None.

(** [a == c] for a scalar [c]. *)
Definition np_eq_scalar (a : ndarray value) (c : value) : ndarray bool :=
  NdArray (shape a) ((λ v, value_eqb v c) <$> values a).

(** [target[mask] = source[mask]]: boolean-mask assignment.  Both indexings
    need the mask to have the shape of the indexed array. *)
Definition np_masked_assign (mask : ndarray bool) (target source : ndarray value)
  : option (ndarray value) :=
  if decide (shape mask = shape source ∧ shape mask = shape target)
  then Some (NdArray (shape target)
               (zip_with (λ (m : bool) (ts : value * value),
                            if m then ts.2 else ts.1)
                  (values mask) (zip (values target) (values source))))
  else None.

(** A dataset is its ordered mapping [data_vars] from band names to arrays;
    the order is the iteration order of [list(dataset.data_vars)]. *)
Definition Dataset : Type := list (string * ndarray value).

Definition data_vars (ds : Dataset) : list string := ds.*1.

Fixpoint ds_get (ds : Dataset) (key : string) : option (ndarray value) :=
  match ds with
  | [] => None
  | (k, a) :: rest => if decide (k = key) then Some a else ds_get rest key
  end.

Fixpoint ds_set (ds : Dataset) (key : string) (a : ndarray value) : Dataset :=
  match ds with
  | [] => []
  | (k, b) :: rest =>
      if decide (k = key) then (k, a) :: rest else (k, b) :: ds_set rest key a
  end.

(** The value of band [key] at flat pixel position [p]. *)
Definition pixel (ds : Dataset) (key : string) (p : nat) : option value :=
  a ← ds_get ds key; values a !! p.

(** The [for key in ...] loops of the combination methods: the body updates
    [dataset_out] in place, so every iteration sees the writes of the
    earlier ones. *)
Fixpoint for_keys (body : Dataset → string → option Dataset)
    (dataset_out : Dataset) (keys : list string) : option Dataset :=
  match keys with
  | [] => Some dataset_out
  | key :: keys' => out' ← body dataset_out key; for_keys body out' keys'
  end.

(** Well-formedness: unique band names (xarray's [data_vars] is a mapping)
    and buffers as long as their shape says. *)
Global Instance wf_array_dec {A} (a : ndarray A) : Decision (wf_array a).
Proof. unfold wf_array. apply _. Defined.

Definition wf_dataset (ds : Dataset) : Prop :=
  NoDup (data_vars ds) ∧ Forall (λ ka, wf_array ka.2) ds.

(** Every band of [inter] is a band of [new], with the same shape. *)
Definition covers (new inter : Dataset) : Prop :=
  Forall (λ ka, shape <$> ds_get new ka.1 = Some (shape ka.2)) inter.

(** A well-formed dataset all of whose bands have shape [s]. *)
Definition on_grid (s : nat * nat) (ds : Dataset) : Prop :=
  NoDup (data_vars ds) ∧ Forall (λ ka, shape ka.2 = s ∧ wf_array ka.2) ds.

(** What two results of a criterion fold have in common: the criterion band
    wherever the criteria of [A] and [B] are both numbers, every band where
    they are different numbers; where they are equal, or one of them is NaN,
    each result keeps the values of its first operand. *)
Definition agree_off_ties (A B r1 r2 : Dataset) : Prop :=
  (∀ p a b, pixel A "ndvi" p = Some (Num a) → pixel B "ndvi" p = Some (Num b) →
            pixel r1 "ndvi" p = pixel r2 "ndvi" p)
  ∧ (∀ key p a b,
        pixel A "ndvi" p = Some (Num a) → pixel B "ndvi" p = Some (Num b) →
        a ≠ b → pixel r1 key p = pixel r2 key p)
  ∧ (∀ key p,
        pixel A "ndvi" p = pixel B "ndvi" p
        ∨ pixel A "ndvi" p = Some NaN ∨ pixel B "ndvi" p = Some NaN →
        pixel r1 key p = pixel A key p ∧ pixel r2 key p = pixel B key p).

Module Combine.

Definition nodata : value := Num (-9999).

(** [dataset_out[key].values[dataset_out[key].values==-9999] =
       dataset[key].values[dataset_out[key].values==-9999]] *)
Definition fill_nodata_key (dataset dataset_out : Dataset) (key : string)
  : option Dataset :=
  out_k ← ds_get dataset_out key;
  new_k ← ds_get dataset key;
  a ← np_masked_assign (np_eq_scalar out_k nodata) out_k new_k;
  Some (ds_set dataset_out key a).

Definition fill_nodata (dataset : Dataset) (dataset_intermediate : option Dataset)
  : option Dataset :=
  match dataset_intermediate with
  | None => Some dataset
  | Some inter => for_keys (fill_nodata_key dataset) inter (data_vars inter)
  end.

(** [dataset_out[key].values[dataset.ndvi.values ⋈ dataset_out.ndvi.values] =
       dataset[key].values[dataset.ndvi.values ⋈ dataset_out.ndvi.values]]
    where [⋈] is [>] for [max_value] and [<] for [min_value].  The mask is
    recomputed from the current [dataset_out.ndvi] for every key; it is
    [False] wherever one of the two criterion values is NaN. *)
Definition criterion_key (cmp : value → value → bool)
    (dataset dataset_out : Dataset)
    (key : string) : option Dataset :=
  new_k ← ds_get dataset key;
  ndvi_new ← ds_get dataset "ndvi";
  ndvi_out ← ds_get dataset_out "ndvi";
  mask ← np_compare cmp ndvi_new ndvi_out;
  out_k ← ds_get dataset_out key;
  a ← np_masked_assign mask out_k new_k;
  Some (ds_set dataset_out key a).

Definition max_value (dataset : Dataset) (dataset_intermediate : option Dataset)
  : option Dataset :=
  match dataset_intermediate with
  | None => Some dataset
  | Some inter =>
      for_keys (criterion_key value_gtb dataset) inter (data_vars inter)
  end.

Definition min_value (dataset : Dataset) (dataset_intermediate : option Dataset)
  : option Dataset :=
  match dataset_intermediate with
  | None => Some dataset
  | Some inter =>
      for_keys (criterion_key value_ltb dataset) inter (data_vars inter)
  end.

(** [method(B, method(A, None))]: folding the list [[A; B]] from an empty
    intermediate. *)
Definition fold2 (method : Dataset → option Dataset → option Dataset)
    (A B : Dataset) : option Dataset :=
  r ← method A None; method B (Some r).

End Combine.

(** Two one-pixel datasets with equal criterion values and different reds,
    and an intermediate with one nodata pixel. *)
Module CombineExamples.
Definition one_pixel (v : Z) : ndarray value := NdArray (1, 1)%nat [Num v].
Definition tieA : Dataset := [("red"%string, one_pixel 10); ("ndvi"%string, one_pixel 1)].
Definition tieB : Dataset := [("red"%string, one_pixel 20); ("ndvi"%string, one_pixel 1)].
(** The criterion band first: the later bands see the updated criterion. *)
Definition ndvi_firstA : Dataset := [("ndvi"%string, one_pixel 1); ("red"%string, one_pixel 10)].
Definition ndvi_firstB : Dataset := [("ndvi"%string, one_pixel 2); ("red"%string, one_pixel 20)].
Definition holes : Dataset :=
  [("red"%string, NdArray (1, 2)%nat [Num (-9999); Num 7])].
Definition fresh : Dataset := [("red"%string, NdArray (1, 2)%nat [Num 5; Num 6])].
(** A pixel whose criterion is NaN ([0 / 0]), against one whose criterion is
    a number. *)
Definition nanA : Dataset :=
  [("red"%string, one_pixel 10); ("ndvi"%string, NdArray (1, 1)%nat [NaN])].
End CombineExamples.

Global Instance wf_dataset_dec ds : Decision (wf_dataset ds).
Proof. unfold wf_dataset. apply _. Defined.
Global Instance covers_dec new inter : Decision (covers new inter).
Proof. unfold covers. apply _. Defined.
Global Instance on_grid_dec s ds : Decision (on_grid s ds).
Proof. unfold on_grid. apply _. Defined.

(** ** The table [processing_algorithms] *)

Module Options.

(** The per-chunk compositing functions come from [utils.dc_mosaic]; the
    table only holds references to them. *)
Inductive processing_method_ref :=
| create_mosaic_iterative
| create_median_mosaic
| create_max_ndvi_mosaic
| create_min_ndvi_mosaic.

Record processing_options := ProcessingOptions {
  geo_chunk_size : Q;
  time_chunks : option Z;
  time_slices_per_iteration : option Z;
  reverse_time : bool;
  chunk_combination_method : Dataset → option Dataset → option Dataset;
  processing_method : processing_method_ref
}.

Definition most_recent : processing_options :=
  ProcessingOptions (1 # 2)%Q (Some 5) (Some 5) true
    Combine.fill_nodata create_mosaic_iterative.
Definition least_recent : processing_options :=
  ProcessingOptions (1 # 2)%Q (Some 5) (Some 1) false
    Combine.fill_nodata create_mosaic_iterative.
Definition median_pixel : processing_options :=
  ProcessingOptions (1 # 100)%Q None None false
    Combine.fill_nodata create_median_mosaic.
Definition max_ndvi : processing_options :=
  ProcessingOptions (1 # 2)%Q (Some 5) (Some 5) false
    Combine.max_value create_max_ndvi_mosaic.
Definition min_ndvi : processing_options :=
  ProcessingOptions (1 # 2)%Q (Some 5) (Some 5) false
    Combine.min_value create_min_ndvi_mosaic.

(** [processing_algorithms[name]]; [None] is the [KeyError]. *)
Definition processing_algorithms (name : string) : option processing_options :=
  if decide (name = "most_recent") then Some most_recent
  else if decide (name = "least_recent") then Some least_recent
  else if decide (name = "median_pixel") then Some median_pixel
  else if decide (name = "max_ndvi") then Some max_ndvi
  else if decide (name = "min_ndvi") then Some min_ndvi
  else None.

End Options.

(** ** Paths and Python list indexing *)

Definition base_result_path : string := "/ui_results/custom_mosaic/".
Definition base_temp_path : string := "/ui_results_temp/".

(** [len(l)] as a Python integer. *)
Definition len {A} (l : list A) : Z := Z.of_nat (length l).

(** [l[i]] with Python's negative indices; [None] is the [IndexError]. *)
Definition py_index {A} (l : list A) (i : Z) : option A :=
  if decide (0 ≤ i) then l !! Z.to_nat i
  else if decide (0 ≤ i + len l) then l !! Z.to_nat (i + len l)
  else None.

(** [np.sum(mask == True)] on one time slice of the clear mask. *)
Definition np_count_true (slice : list bool) : nat :=
  length (filter (λ b : bool, b = true) slice).

(** Acquisition metadata: the dictionary [{date: {'clean_pixels': n}}];
    dates are timestamps in seconds. *)
Abbreviation acquisition_map := (gmap Z nat).

(** ** The chunk worker [generate_TOOL_chunk] *)

Module Chunk.

(** What the task hands back to [t.get()]: a bare [return], the string
    ["CANCEL"], or a two-element list. *)
Inductive returned :=
| RetNone
| RetCancel
| RetPair (path : option string) (metadata : option acquisition_map).

Inductive result := Returned (r : returned) | Raised.

(** The value added to the cursor when [time_slices_per_iteration] is
    [None]. *)
Definition unset_stride : Z := 10000.

(** [if time not in acquisition_metadata: ... = 0] followed by [+=]. *)
Definition add_clean_pixels (time : Z) (clean_pixels : nat)
    (md : acquisition_map) : acquisition_map :=
  let md' := if decide (md !! time = None) then <[time := 0%nat]> md else md in
  <[time := (md' !!! time + clean_pixels)%nat]> md'.

(** The additive total of a date over a list of observations; [None] when
    the date was never observed. *)
Fixpoint date_total (obs : list (Z * nat)) (d : Z) : option nat :=
  match obs with
  | [] => None
  | (t, c) :: rest =>
      if decide (t = d) then Some (default 0 (date_total rest d) + c)%nat
      else date_total rest d
  end.

Section worker.

(** The collaborators of one worker call.  [status_at n] is the outcome of
    the [n]-th [Result.objects.get(query_id=...)]: [None] when the row does
    not exist, otherwise its [status].  [clear_mask_of raw] is [None] when
    ["cf_mask" not in raw_data], otherwise
    [create_cfmask_clean_mask(raw_data.cf_mask)] as its list of time slices. *)
Context {RawData Mosaic : Type}.
Variable status_at : nat → option string.
Variable get_dataset_by_extent : Z * Z → RawData.
Variable clear_mask_of : RawData → option (list (list bool)).
Variable drop_cf_mask : RawData → RawData.
Variable run_processing_method :
  Options.processing_method_ref → RawData → list (list bool) → option Mosaic → Mosaic.

Variable processing_options : Options.processing_options.
Variable query_id : string.
Variable acquisition_list : list Z.

(** The locals of the [while] loop.  [polls], [fetched] and [observed] are
    ghost fields: the number of cancellation checks made, the time ranges
    requested and the (date, clean pixels) tallies, newest first. *)
Record loop_state := LoopState {
  time_index : Z;
  iteration_data : option Mosaic;
  acquisition_metadata : acquisition_map;
  polls : nat;
  fetched : list (Z * Z);
  observed : list (Z * nat)
}.

Definition initial : loop_state := LoopState 0 None ∅ 0 [] [].

Inductive step_result :=
| Continue (st : loop_state)
| Return (r : returned)
| Raise.

(** [for timeslice in range(clear_mask.shape[0])]; [None] is the
    [IndexError] of [acquisition_list[time_index + timeslice]]. *)
Fixpoint tally_slices (time_index : Z) (timeslice : nat)
    (slices : list (list bool)) (md : acquisition_map) (obs : list (Z * nat))
  : option (acquisition_map * list (Z * nat)) :=
  match slices with
  | [] => Some (md, obs)
  | slice :: rest =>
      time ← py_index acquisition_list (time_index + Z.of_nat timeslice);
      let clean_pixels := np_count_true slice in
      tally_slices time_index (S timeslice) rest
        (add_clean_pixels time clean_pixels md) ((time, clean_pixels) :: obs)
  end.

Definition stride : Z :=
  match Options.time_slices_per_iteration processing_options with
  | Some n => n
  | None => unset_stride
  end.

(** The bounds of the fetch window (one second is added to the open end). *)
Definition time_range (time_index : Z) : option (Z * Z) :=
  let reverse := Options.reverse_time processing_options in
  first ← py_index acquisition_list time_index;
  let start := if reverse then first + 1 else first in
  end_ ←
    match Options.time_slices_per_iteration processing_options with
    | Some n =>
        if decide (time_index + n - 1 < len acquisition_list)
        then py_index acquisition_list (time_index + n - 1)
        else last_ ← py_index acquisition_list (-1);
             Some (if reverse then last_ else last_ + 1)
    | None =>
        last_ ← py_index acquisition_list (-1);
        Some (if reverse then last_ else last_ + 1)
    end;
  Some (if reverse then (end_, start) else (start, end_)).

(** One pass through the body of the [while] loop. *)
Definition chunk_step (st : loop_state) : step_result :=
  match status_at (polls st) with
  | None => Return RetNone
  | Some status =>
      if decide (status = "CANCEL") then Return RetCancel
      else
        match time_range (time_index st) with
        | None => Raise
        | Some window =>
            let raw_data := get_dataset_by_extent window in
            match clear_mask_of raw_data with
            | None =>
                Continue
                  (LoopState (time_index st + stride) (iteration_data st)
                     (acquisition_metadata st) (S (polls st))
                     (window :: fetched st) (observed st))
            | Some clear_mask =>
                match tally_slices (time_index st) 0 clear_mask
                        (acquisition_metadata st) (observed st) with
                | None => Raise
                | Some (md, obs) =>
                    Continue
                      (LoopState (time_index st + stride)
                         (Some (run_processing_method
                                  (Options.processing_method processing_options)
                                  (drop_cf_mask raw_data) clear_mask
                                  (iteration_data st)))
                         md (S (polls st)) (window :: fetched st) obs)
                end
            end
        end
  end.

Inductive loop_exit :=
| Exited (st : loop_state)
| Stopped (r : result) (st : loop_state).

(** [while time_index < len(acquisition_list)]; [None] when the fuel runs
    out. *)
Fixpoint chunk_loop (fuel : nat) (st : loop_state) : option loop_exit :=
  if decide (time_index st < len acquisition_list) then
    match fuel with
    | O => None
    | S fuel' =>
        match chunk_step st with
        | Continue st' => chunk_loop fuel' st'
        | Return r => Some (Stopped (Returned r) st)
        | Raise => Some (Stopped Raised st)
        end
    end
  else Some (Exited st).

(** The state at the start of the [k]-th pass, when the loop gets there. *)
Fixpoint chunk_iter (k : nat) (st : loop_state) : option loop_state :=
  match k with
  | O => Some st
  | S k' =>
      if decide (time_index st < len acquisition_list) then
        match chunk_step st with
        | Continue st' => chunk_iter k' st'
        | _ => None
        end
      else None
  end.

Definition geo_path (time_num chunk_num : nat) : string :=
  base_temp_path +:+ query_id +:+ "/geo_chunk_" +:+ pretty time_num
    +:+ "_" +:+ pretty chunk_num +:+ ".nc".

(** The task: its result and the scratch files, the newly written one
    first. *)
Definition generate_TOOL_chunk (fuel : nat) (time_num chunk_num : nat)
    (files : list (string * Mosaic)) : option (result * list (string * Mosaic)) :=
  match chunk_loop fuel initial with
  | None => None
  | Some (Stopped r _) => Some (r, files)
  | Some (Exited st) =>
      match iteration_data st with
      | None => Some (Returned (RetPair None None), files)
      | Some data =>
          Some (Returned (RetPair (Some (geo_path time_num chunk_num))
                            (Some (acquisition_metadata st))),
                (geo_path time_num chunk_num, data) :: files)
      end
  end.

End worker.

End Chunk.

(** ** The query task [create_cloudfree_mosaic] *)

Module Orchestrator.

(** The [Result] row: the progress ledger the client polls.  The
    geographic bounds are left out. *)
Record Result := MkResult {
  status : string;
  scenes_processed : Z;
  total_scenes : Z;
  result_path : string;
  data_path : string;
  data_netcdf_path : string;
  result_filled_path : string
}.

(** Modelled from the spec: [Query.generate_result] belongs to the models
    module of this application, which is not among the sources; the ledger is
    created at query start with nothing processed, as the sibling definition
    in [apps/tsm/models.py] does ([total_scenes=0], [scenes_processed=0],
    [status="WAIT"]). *)
Definition generate_result : Result := MkResult "WAIT" 0 0 "" "" "" "".

Definition set_progress (r : Result) (n : Z) : Result :=
  MkResult (status r) n (total_scenes r) (result_path r) (data_path r)
    (data_netcdf_path r) (result_filled_path r).

Definition set_total (r : Result) (n : Z) : Result :=
  MkResult (status r) (scenes_processed r) n (result_path r) (data_path r)
    (data_netcdf_path r) (result_filled_path r).

Definition set_error (r : Result) (message : string) : Result :=
  MkResult "ERROR" (scenes_processed r) (total_scenes r) message (data_path r)
    (data_netcdf_path r) (result_filled_path r).

(** What the task does to the database and to the disk, in order. *)
Inductive event :=
| QueriesUpdated                       (* queries.update(complete=True) *)
| ResultCreated (r : Result)           (* query.generate_result() *)
| MetadataCreated                      (* query.generate_metadata(...) *)
| SplitTask                            (* split_task(...) *)
| Mkdir                                (* os.mkdir(base_temp_path + query_id) *)
| Delay (time_range_index geographic_chunk_index : nat)
| Get (time_range_index geographic_chunk_index : nat) (tile : Chunk.result)
| ResultSaved (r : Result)             (* result.save() *)
| Rmtree                               (* shutil.rmtree(base_temp_path + query_id) *)
| QueryDeleted
| MetadataDeleted
| ResultDeleted
| Combined (time_range_index : nat)    (* chunk_combination_method(...) *)
| MetadataSaved (acquisition_metadata : acquisition_map)
| OutputsWritten                       (* the GeoTIFF, NetCDF and PNG files *)
| QuerySaved.                          (* query.complete = True; query.save() *)

Inductive outcome := Returns | Raises.

Record run := Run { trace : list event; result_of : outcome }.

(** The collaborators of one call.  [split_task] is external: its three
    lists are taken as given.  [tile_of t c] is what [t.get()] would yield
    for the task of time range [t] and geographic chunk [c], a result of the
    type [Chunk.result]; it is what the join loop of lines 241-256 reads, but
    no run gets to read it, since no task is ever appended to a group (see
    [dispatch]).  [open_dataset] and [concat_latitude] are [None] when they
    raise; [xr.concat] is only defined on a non-empty sequence.
    [write_outputs] tells whether the output files of lines 299-317 get
    written. *)
Record environment := Environment {
  query_id : string;
  queries_count : nat;
  results_count : nat;
  result_type_found : bool;
  scene_metadata : option (Z * Z);
  acquisitions : list Z;
  compositor : string;
  lat_ranges : list (Q * Q);
  lon_ranges : list (Q * Q);
  time_ranges : list (list Z);
  scratch_exists : bool;
  tile_of : nat → nat → Chunk.result;
  open_dataset : string → option Dataset;
  concat_latitude : Dataset → list Dataset → option Dataset;
  write_outputs : Dataset → bool
}.

Definition generic_message : string :=
  "There was an exception when handling this query.".
Definition no_acquisitions_message : string :=
  "There were no acquisitions for this parameter set.".

(** [error_with_message]: the events, given whether the scratch directory
    exists. *)
Definition error_with_message (scratch : bool) (result : Result)
    (message : string) : list event :=
  (if scratch then [Rmtree] else []) ++ [ResultSaved (set_error result message)].

(** [xr.concat(objs, dim='latitude')]: a [ValueError] on an empty sequence. *)
Definition xr_concat (env : environment) (objs : list Dataset) : option Dataset :=
  match objs with
  | [] => None
  | first :: rest => concat_latitude env first rest
  end.

(** The [for acquisition_date in tile_metadata] loop. *)
Definition merge_metadata (tile_metadata acquisition_metadata : acquisition_map)
  : acquisition_map :=
  map_fold
    (λ date clean_pixels am,
       match am !! date with
       | Some n => <[date := (n + clean_pixels)%nat]> am
       | None => <[date := clean_pixels]> am
       end)
    acquisition_metadata tile_metadata.

Definition kept_tile : Type := string * option acquisition_map.

Inductive join_status :=
| Joined (tiles : list kept_tile)
| JoinCancelled
| JoinFailed.

(** [for t in geographic_group]: collect the tiles of one time range. *)
Fixpoint join_tiles (env : environment) (t : nat) (chunks : list nat)
    (result : Result) (tiles : list kept_tile)
  : list event * Result * join_status :=
  match chunks with
  | [] => ([], result, Joined tiles)
  | c :: chunks' =>
      match tile_of env t c with
      | Chunk.Raised => ([Get t c Chunk.Raised], result, JoinFailed)
      | Chunk.Returned Chunk.RetCancel =>
          ([Get t c (Chunk.Returned Chunk.RetCancel)], result, JoinCancelled)
      | Chunk.Returned Chunk.RetNone =>
          (* [tile[0]] on [None]: TypeError *)
          ([Get t c (Chunk.Returned Chunk.RetNone)], result, JoinFailed)
      | Chunk.Returned (Chunk.RetPair path md) =>
          let tiles' :=
            match path with
            | Some p => tiles ++ [(p, md)]
            | None => tiles
            end in
          let result' := set_progress result (scenes_processed result + 1) in
          let '(events, result'', js) := join_tiles env t chunks' result' tiles' in
          (Get t c (Chunk.Returned (Chunk.RetPair path md))
             :: ResultSaved result' :: events,
           result'', js)
      end
  end.

(** [for tile in tiles]: merge the metadata and open the scratch files. *)
Fixpoint load_tiles (env : environment) (tiles : list kept_tile)
    (am : acquisition_map) (xr_tiles : list Dataset)
  : option (acquisition_map * list Dataset) :=
  match tiles with
  | [] => Some (am, xr_tiles)
  | (path, md) :: rest =>
      tile_metadata ← md;
      ds ← open_dataset env path;
      load_tiles env rest (merge_metadata tile_metadata am) (xr_tiles ++ [ds])
  end.

Inductive fold_status :=
| Folded (dataset_out : option Dataset) (am : acquisition_map)
| FoldCancelled
| FoldFailed.

(** Lines 258-269: load the tiles, concatenate them along the latitude and
    combine the result with [dataset_out]; [None] when a step raises. *)
Definition fold_group (env : environment) (options : Options.processing_options)
    (tiles : list kept_tile) (dataset_out : option Dataset) (am : acquisition_map)
  : option (acquisition_map * Dataset) :=
  '(am', xr_tiles) ← load_tiles env tiles am [];
  dataset ← xr_concat env (reverse xr_tiles);
  out ← Options.chunk_combination_method options dataset dataset_out;
  Some (am', out).

(** [for geographic_group in time_chunk_tasks]. *)
Fixpoint join_groups (env : environment) (options : Options.processing_options)
    (groups : list nat) (result : Result) (dataset_out : option Dataset)
    (am : acquisition_map) : list event * Result * fold_status :=
  match groups with
  | [] => ([], result, Folded dataset_out am)
  | t :: groups' =>
      let '(events, result', js) :=
        join_tiles env t (seq 0 (length (lat_ranges env))) result [] in
      match js with
      | JoinFailed => (events, result', FoldFailed)
      | JoinCancelled =>
          (events ++ [Rmtree; QueryDeleted; MetadataDeleted; ResultDeleted],
           result', FoldCancelled)
      | Joined tiles =>
          match fold_group env options tiles dataset_out am with
          | None => (events, result', FoldFailed)
          | Some (am', out) =>
              let '(events', result'', fs) :=
                join_groups env options groups' result' (Some out) am' in
              (events ++ Combined t :: events', result'', fs)
          end
      end
  end.

(** The two dispatch loops of lines 229-235: the events, and whether the
    loops end without an exception.  The task called there,
    [generate_mosaic_chunk], is a name the module neither defines nor
    imports (its chunk task is [generate_TOOL_chunk]): the first evaluation
    of [generate_mosaic_chunk.delay] raises [NameError], before the arguments
    are looked at and before anything is sent.  With no time range or no
    latitude range the call is never evaluated. *)
Definition dispatch (env : environment) : list event * bool :=
  match time_ranges env, lat_ranges env with
  | _ :: _, _ :: _ => ([], false)
  | _, _ => ([], true)
  end.

Definition total_work_units (env : environment) : Z :=
  len (time_ranges env) * len (lat_ranges env).

Definition finished (env : environment) (result : Result) : Result :=
  let file_path := base_result_path +:+ query_id env in
  MkResult "OK" (scenes_processed result) (len (acquisitions env))
    (file_path +:+ ".png") (file_path +:+ ".tif") (file_path +:+ ".nc")
    (file_path +:+ "_filled.png").

Inductive control := Finished | Failed.

(** How the [try] body is left once the joins are over: the cancelled
    return, an exception of the loops, or lines 271-329.  The events, the
    [result] object, whether the scratch directory still exists, and whether
    an exception is under way. *)
Definition conclude (env : environment) (result : Result) (fs : fold_status)
  : list event * Result * bool * control :=
  match fs with
  | FoldCancelled => ([], result, false, Finished)
  | FoldFailed => ([], result, true, Failed)
  | Folded None _ =>
      (* [dataset_out.latitude] on [None] *)
      ([], result, true, Failed)
  | Folded (Some out) am =>
      match ds_get out "blue" with
      | None => ([Rmtree], result, false, Failed)
      | Some _ =>
          if write_outputs env out then
            ([Rmtree; MetadataSaved am; OutputsWritten;
              ResultSaved (finished env result); QuerySaved],
             finished env result, false, Finished)
          else ([Rmtree; MetadataSaved am], result, false, Failed)
      end
  end.

(** The body of the [try] statement: its events, the [result] object,
    whether the scratch directory exists when it is left, and whether it is
    left by an exception. *)
Definition try_body (env : environment) (result : Result)
  : list event * Result * bool * control :=
  let scratch := scratch_exists env in
  if decide (len (acquisitions env) < 1) then
    (error_with_message scratch result no_acquisitions_message,
     set_error result no_acquisitions_message, false, Finished)
  else
    match Options.processing_algorithms (compositor env) with
    | None => ([], result, scratch, Failed)
    | Some options =>
        let result1 := set_total result (total_work_units env) in
        let made := SplitTask :: (if scratch then [] else [Mkdir]) in
        let '(delays, dispatched) := dispatch env in
        if negb dispatched then (made ++ delays, result1, true, Failed)
        else
          let '(joins, result2, fs) :=
            join_groups env options (seq 0 (length (time_ranges env)))
              result1 None ∅ in
          let '(tail, result3, scratch', ctl) := conclude env result2 fs in
          (made ++ delays ++ joins ++ tail, result3, scratch', ctl)
    end.

Definition create_cloudfree_mosaic (env : environment) : run :=
  if decide (1 < queries_count env)%nat then
    Run (if decide (0 < results_count env)%nat then [QueriesUpdated] else [])
      Returns
  else if decide (queries_count env = 0%nat) then Run [] Raises
  else if negb (result_type_found env) then Run [] Raises
  else
    let result := generate_result in
    match scene_metadata env with
    | None =>
        Run (ResultCreated result
               :: error_with_message (scratch_exists env) result generic_message)
          Returns
    | Some _ =>
        let '(events, result', scratch, ctl) := try_body env result in
        match ctl with
        | Finished =>
            Run (ResultCreated result :: MetadataCreated :: events) Returns
        | Failed =>
            Run (ResultCreated result :: MetadataCreated :: events
                   ++ error_with_message scratch result' generic_message)
              Raises
        end
    end.

(** Observations on a trace. *)



End Orchestrator.

(** A median-pixel chunk ([time_slices_per_iteration] unset) over [n]
    acquisitions dated [0 .. n-1], never cancelled; the scene store returns
    one one-pixel clean slice per acquisition in the requested range. *)
Module ChunkExamples.

Definition dates (n : nat) : list Z := Z.of_nat <$> seq 0 n.

Definition never_cancelled (n : nat) : option string := Some "WAIT"%string.

Definition slices_in (window : Z * Z) : option (list (list bool)) :=
  Some (replicate (Z.to_nat (window.2 - window.1)) [true]).

Definition keep_window (m : Options.processing_method_ref) (raw : Z * Z)
    (mask : list (list bool)) (previous : option (Z * Z)) : Z * Z := raw.

Definition median_run (n : nat) (fuel : nat) : option (Chunk.loop_exit (Mosaic := Z * Z)) :=
  Chunk.chunk_loop never_cancelled (λ w, w) slices_in (λ w, w) keep_window
    Options.median_pixel (dates n) fuel Chunk.initial.

(** What a run that left the loop did: the time ranges it requested,
    oldest first, and the clean pixels it tallied for two dates. *)
Definition report (r : option (Chunk.loop_exit (Mosaic := Z * Z))) (d1 d2 : Z)
  : option (list (Z * Z) * option nat * option nat) :=
  match r with
  | Some (Chunk.Exited st) =>
      Some (reverse (Chunk.fetched st),
            Chunk.acquisition_metadata st !! d1,
            Chunk.acquisition_metadata st !! d2)
  | _ => None
  end.

(** A chunk of three acquisitions cancelled at its second check. *)
Definition cancelled_at_1 (n : nat) : option string :=
  if decide (n = 1%nat) then Some "CANCEL"%string else Some "WAIT"%string.

End ChunkExamples.

(** Queries, each with the results its chunk tasks would give: the
    one-chunk, three-acquisition scenario; the same query with an empty
    chunk; a two-chunk query whose second chunk is cancelled; a repeated
    query. *)
Module OrchestratorExamples.
Import Orchestrator.

Definition blue_tile : Dataset := [("blue"%string, NdArray (1, 1)%nat [Num 7])].

Definition counts : acquisition_map := {[ 1 := 4%nat; 2 := 3%nat; 3 := 2%nat ]}.

Definition one_tile (t c : nat) : Chunk.result :=
  Chunk.Returned
    (Chunk.RetPair (Some "/ui_results_temp/q/geo_chunk_0_0.nc"%string) (Some counts)).

Definition scenario : environment :=
  Environment "q" 1 0 true (Some (3, 1)) [1; 2; 3] "most_recent"
    [(0, 1)%Q] [(0, 1)%Q] [[3; 2; 1]] false one_tile
    (λ _, Some blue_tile) (λ first _, Some first) (λ _, true).



Definition second_cancelled (t c : nat) : Chunk.result :=
  if decide (c = 1%nat) then Chunk.Returned Chunk.RetCancel else one_tile t c.

Definition cancelled : environment :=
  Environment "q" 1 0 true (Some (3, 2)) [1; 2; 3] "most_recent"
    [(0, 1)%Q; (1, 2)%Q] [(0, 1)%Q; (0, 1)%Q] [[3; 2; 1]] false second_cancelled
    (λ _, Some blue_tile) (λ first _, Some first) (λ _, true).

Definition repeated : environment :=
  Environment "q" 2 1 true (Some (3, 1)) [1; 2; 3] "most_recent"
    [(0, 1)%Q] [(0, 1)%Q] [[3; 2; 1]] false one_tile
    (λ _, Some blue_tile) (λ first _, Some first) (λ _, true).

End OrchestratorExamples.

(** ** Folding a sequence of datasets *)

Module CombineFold.

(** [dataset_out = method(dataset, dataset_out)] for every dataset in turn,
    as the loop over the time ranges does (lines 238-269); [None] when a
    call raises. *)
Fixpoint fold_from (method : Dataset → option Dataset → option Dataset)
    (dataset_out : option Dataset) (datasets : list Dataset)
  : option (option Dataset) :=
  match datasets with
  | [] => Some dataset_out
  | dataset :: rest =>
      out ← method dataset dataset_out; fold_from method (Some out) rest
  end.

(** The first value of a list that is not the nodata sentinel, the
    sentinel when there is none. *)
Definition first_valid (vs : list value) : value :=
  default Combine.nodata (head (filter (λ v, v ≠ Combine.nodata) vs)).

(** The values a list of datasets holds at one band and pixel. *)
Definition values_at (datasets : list Dataset) (key : string) (p : nat)
  : list value :=
  omap (λ d, pixel d key p) datasets.

(** The criterion a criterion method leaves at a pixel whose intermediate
    holds [kept] and whose new dataset holds [new]: [pick] of the two
    numbers, and [kept] as soon as one of them is NaN. *)
Definition picked (pick : Z → Z → Z) (kept new : value) : value :=
  match kept, new with
  | Num a, Num b => Num (pick a b)
  | _, _ => kept
  end.

(** Datasets on the grid [s] with the bands [keys], in that order. *)
Definition aligned (s : nat * nat) (keys : list string) (datasets : list Dataset)
  : Prop :=
  Forall (λ d, on_grid s d ∧ data_vars d = keys) datasets.

Global Instance aligned_dec s keys datasets : Decision (aligned s keys datasets).
Proof. unfold aligned. apply _. Defined.

Definition row (vs : list Z) : list value := Num <$> vs.

Definition three_dates : list Dataset :=
  [ [("red"%string, NdArray (1, 3)%nat (row [-9999; 5; -9999]))];
    [("red"%string, NdArray (1, 3)%nat (row [7; 8; -9999]))];
    [("red"%string, NdArray (1, 3)%nat (row [1; 2; -9999]))] ].

Definition ndvi_series : list Dataset :=
  [ [("red"%string, NdArray (1, 2)%nat (row [10; 11]));
     ("ndvi"%string, NdArray (1, 2)%nat (row [3; 9]))];
    [("red"%string, NdArray (1, 2)%nat (row [20; 21]));
     ("ndvi"%string, NdArray (1, 2)%nat (row [5; 1]))];
    [("red"%string, NdArray (1, 2)%nat (row [30; 31]));
     ("ndvi"%string, NdArray (1, 2)%nat (row [4; 9]))] ].

End CombineFold.

(** More chunk runs: a store that never has the quality band, a ledger
    row that is gone at the second check, and a store with overlapping
    fetches. *)
Module ChunkMoreExamples.

Definition no_mask (window : Z * Z) : option (list (list bool)) := None.

Definition row_gone_at_1 (n : nat) : option string :=
  if decide (n = 1%nat) then None else Some "WAIT"%string.

(** A store whose fetches overlap: a window that starts before date 2
    carries two time slices of three pixels, the last window one. *)
Definition overlapping (window : Z * Z) : option (list (list bool)) :=
  if decide (window.1 < 2)
  then Some [[true; true; false]; [true; false; false]]
  else Some [[true; true; true]].

End ChunkMoreExamples.

(** * The list fields of the metadata row *)

Module Text.

(** [ch in s]. *)
Fixpoint contains (ch : Ascii.ascii) (s : string) : bool :=
  match s with
  | EmptyString => false
  | String c s' => bool_decide (c = ch) || contains ch s'
  end.

(** [s.isdigit()] on the characters of [s]. *)
Definition digit (c : Ascii.ascii) : bool := bool_decide (is_Some (Ascii.is_nat c)).

Fixpoint digits (s : string) : bool :=
  match s with
  | EmptyString => true
  | String c s' => digit c && digits s'
  end.

(** [s.rstrip(ch)]: the trailing run of [ch] is removed. *)
Fixpoint py_rstrip (ch : Ascii.ascii) (s : string) : string :=
  match s with
  | EmptyString => EmptyString
  | String c s' =>
      match py_rstrip ch s' with
      | EmptyString => if decide (c = ch) then EmptyString else String c EmptyString
      | kept => String c kept
      end
  end.

(** [s.split(sep)]: one item per separator and one more; [''.split(',')]
    is [['']]. *)
Fixpoint py_split (sep : Ascii.ascii) (s : string) : list string :=
  match s with
  | EmptyString => [EmptyString]
  | String c s' =>
      if decide (c = sep) then EmptyString :: py_split sep s'
      else match py_split sep s' with
           | item :: items => String c item :: items
           | [] => [String c EmptyString]
           end
  end.

(** The character [','] (code 44). *)
Definition comma : Ascii.ascii := Ascii.ascii_of_nat 44.

End Text.

Module MetadataRow.

(** The fields of [Metadata] the mosaic task fills in by appending; the
    character fields default to the empty string. *)
Record Metadata := MkMetadata {
  pixel_count : Z;
  acquisition_list : string;
  clean_pixels_per_acquisition : string;
  clean_pixel_percentages_per_acquisition : string
}.

Definition acquisition_list_as_list (self : Metadata) : list string :=
  Text.py_split Text.comma (Text.py_rstrip Text.comma (acquisition_list self)).

Definition clean_pixels_list_as_list (self : Metadata) : list string :=
  Text.py_split Text.comma (Text.py_rstrip Text.comma (clean_pixels_per_acquisition self)).

Definition clean_pixels_percentages_as_list (self : Metadata) : list string :=
  Text.py_split Text.comma
    (Text.py_rstrip Text.comma (clean_pixel_percentages_per_acquisition self)).

(** [zip(a, b, c)]: as long as the shortest list. *)
Definition zip3 {A B C} (a : list A) (b : list B) (c : list C)
  : list (A * B * C) :=
  zip (zip a b) c.

Definition acquisitions_dates_with_pixels_percentages (self : Metadata)
  : list (string * string * string) :=
  zip3 (acquisition_list_as_list self) (clean_pixels_list_as_list self)
    (clean_pixels_percentages_as_list self).

(** [dates = list(acquisition_metadata.keys()); dates.sort()]. *)
Definition sorted_dates (acquisition_metadata : acquisition_map) : list Z :=
  merge_sort Z.le (map_to_list acquisition_metadata).*1.

Section populate.

(** [date.strftime("%m/%d/%Y")] and [str(clean_pixels * 100 / pixel_count)],
    a float, are left to the caller. *)
Variable strftime : Z → string.
Variable str_percentage : nat → Z → string.

(** One pass of the loop of lines 286-291 of [tasks.py]. *)
Definition append_date (acquisition_metadata : acquisition_map)
    (meta : Metadata) (date : Z) : Metadata :=
  let clean_pixels := acquisition_metadata !!! date in
  MkMetadata (pixel_count meta)
    (acquisition_list meta +:+ (strftime date +:+ ","))
    (clean_pixels_per_acquisition meta +:+ (pretty clean_pixels +:+ ","))
    (clean_pixel_percentages_per_acquisition meta
       +:+ (str_percentage clean_pixels (pixel_count meta) +:+ ",")).

(** [for date in reversed(dates)]. *)
Definition populate (acquisition_metadata : acquisition_map) (meta : Metadata)
  : Metadata :=
  foldl (append_date acquisition_metadata) meta
    (reverse (sorted_dates acquisition_metadata)).

(** The row the reader shows for one date. *)
Definition row_of (acquisition_metadata : acquisition_map) (pixels : Z)
    (date : Z) : string * string * string :=
  (strftime date, pretty (acquisition_metadata !!! date),
   str_percentage (acquisition_metadata !!! date) pixels).

End populate.

End MetadataRow.

Module MetadataExamples.

Definition two_dates : acquisition_map := <[ 86400 := 7%nat ]> (<[ 0 := 12%nat ]> ∅).

(** Stand-ins for the two formatting functions. *)
Definition day_number (date : Z) : string :=
  "d" +:+ pretty (Z.to_nat (date / 86400)).
Definition percent (clean_pixels : nat) (pixels : Z) : string :=
  pretty (clean_pixels * 100 / Z.to_nat pixels)%nat +:+ ".0".

End MetadataExamples.

(** * Facts about the combination methods *)

Module CombineFacts.
Import Combine.

Lemma ds_get_set_eq ds k a :
  is_Some (ds_get ds k) → ds_get (ds_set ds k a) k = Some a.
Proof.
  induction ds as [|[k' b] ds IH]; simpl; intros [x Hx]; [done|].
  destruct (decide (k' = k)) as [->|Hne]; simpl.
  - by rewrite decide_True.
  - rewrite decide_False by done. apply IH. eauto.
Qed.

Lemma ds_get_set_ne ds k k' a :
  k ≠ k' → ds_get (ds_set ds k a) k' = ds_get ds k'.
Proof.
  intros Hne. induction ds as [|[k0 b] ds IH]; simpl; [done|].
  destruct (decide (k0 = k)) as [->|Hk]; simpl.
  - by rewrite !decide_False.
  - destruct (decide (k0 = k')); [done|apply IH].
Qed.

Lemma data_vars_set ds k a : data_vars (ds_set ds k a) = data_vars ds.
Proof.
  unfold data_vars. induction ds as [|[k0 b] ds IH]; csimpl; [done|].
  destruct (decide (k0 = k)); csimpl; [done|by f_equal].
Qed.

Lemma ds_get_is_Some ds k : k ∈ data_vars ds → is_Some (ds_get ds k).
Proof.
  unfold data_vars. induction ds as [|[k0 b] ds IH]; simpl.
  - by intros ?%elem_of_nil.
  - intros [->|Hin]%elem_of_cons.
    + rewrite decide_True by done. eauto.
    + destruct (decide (k0 = k)); eauto.
Qed.

Lemma ds_get_elem_of ds k a : ds_get ds k = Some a → k ∈ data_vars ds.
Proof.
  unfold data_vars. induction ds as [|[k0 b] ds IH]; simpl; [done|].
  destruct (decide (k0 = k)) as [->|]; intros H.
  - apply elem_of_cons; by left.
  - apply elem_of_cons; right; by apply IH.
Qed.

Lemma ds_get_In ds k a : ds_get ds k = Some a → (k, a) ∈ ds.
Proof.
  induction ds as [|[k0 b] ds IH]; simpl; [done|].
  destruct (decide (k0 = k)) as [->|]; intros H.
  - simplify_eq. apply elem_of_cons; by left.
  - apply elem_of_cons; right; by apply IH.
Qed.

(** A loop whose body, on every dataset that still agrees with the initial
    one on the keys not yet visited, overwrites the visited key with
    [f key], computes the keywise image of the initial dataset. *)
Lemma for_keys_replace body (f : string → ndarray value) (init : Dataset) :
  ∀ keys out,
    NoDup keys →
    (∀ k, k ∈ keys → is_Some (ds_get out k)) →
    (∀ k, k ∈ keys → ds_get out k = ds_get init k) →
    (∀ pre k post out',
        pre ++ k :: post = keys →
        (∀ k', k' ∈ k :: post → ds_get out' k' = ds_get init k') →
        body out' k = Some (ds_set out' k (f k))) →
    ∃ final,
      for_keys body out keys = Some final
      ∧ data_vars final = data_vars out
      ∧ (∀ k, k ∈ keys → ds_get final k = Some (f k))
      ∧ (∀ k, k ∉ keys → ds_get final k = ds_get out k).
Proof.
  induction keys as [|k keys IH]; intros out Hnd Hsome Hagree Hbody.
  - exists out. repeat split; try done. by intros k ?%elem_of_nil.
  - apply NoDup_cons in Hnd as [Hk Hnd]. simpl.
    rewrite (Hbody [] k keys out eq_refl) by (intros; by apply Hagree).
    simpl.
    destruct (IH (ds_set out k (f k))) as (final & Hrun & Hvars & Hin & Hout).
    + done.
    + intros k' Hk'. rewrite ds_get_set_ne by (intros ->; done).
      apply Hsome, elem_of_cons; by right.
    + intros k' Hk'. rewrite ds_get_set_ne by (intros ->; done).
      apply Hagree, elem_of_cons; by right.
    + intros pre k' post out' Heq Hag.
      apply (Hbody (k :: pre) k' post out'); [by rewrite <- Heq|done].
    + exists final. rewrite Hrun, Hvars, data_vars_set.
      split; [done|]. split; [done|]. split.
      * intros k' [->|Hk']%elem_of_cons; [|by apply Hin].
        rewrite Hout by done. apply ds_get_set_eq, Hsome, elem_of_cons; by left.
      * intros k' Hk'. apply not_elem_of_cons in Hk' as [Hne Hk'].
        rewrite Hout by done. by apply ds_get_set_ne.
Qed.

Lemma masked_assign_values mask t s r :
  np_masked_assign mask t s = Some r →
  shape r = shape t ∧
  ∀ p, values r !! p =
         m ← values mask !! p; tv ← values t !! p; sv ← values s !! p;
         Some (if m : bool then sv else tv).
Proof.
  unfold np_masked_assign. case_decide; [|done]. intros [= <-]. simpl.
  split; [done|]. intros p. rewrite !lookup_zip_with.
  destruct (values mask !! p); simpl; [|done].
  destruct (values t !! p); simpl; [|done].
  by destruct (values s !! p).
Qed.

Lemma wf_dataset_get ds k a :
  wf_dataset ds → ds_get ds k = Some a → wf_array a.
Proof.
  intros [_ Hwf] Hget%ds_get_In.
  by apply (proj1 (Forall_forall _ _) Hwf (k, a)).
Qed.

Lemma covers_get new inter k a :
  covers new inter → ds_get inter k = Some a →
  ∃ b, ds_get new k = Some b ∧ shape b = shape a.
Proof.
  intros Hc Hget%ds_get_In.
  pose proof (proj1 (Forall_forall _ _) Hc (k, a) Hget) as H. simpl in H.
  destruct (ds_get new k) as [b|]; simplify_eq/=. eauto.
Qed.

Lemma on_grid_get s ds k a :
  on_grid s ds → ds_get ds k = Some a → shape a = s ∧ wf_array a.
Proof.
  intros [_ Hg] Hget%ds_get_In.
  by apply (proj1 (Forall_forall _ _) Hg (k, a)).
Qed.

Lemma wf_same_length (a b : ndarray value) :
  wf_array a → wf_array b → shape a = shape b →
  length (values a) = length (values b).
Proof. unfold wf_array. intros -> -> ->. done. Qed.

(** C5.  [fill_nodata] on an absent intermediate is the new dataset (its
    deep copy); on an intermediate it keeps every pixel that is not the
    nodata sentinel [-9999] and takes the new dataset's pixel where the
    intermediate holds the sentinel, for every band of the intermediate. *)
Theorem fill_nodata_spec (dataset inter : Dataset) :
  wf_dataset dataset → wf_dataset inter → covers dataset inter →
  fill_nodata dataset None = Some dataset
  ∧ ∃ out,
      fill_nodata dataset (Some inter) = Some out
      ∧ data_vars out = data_vars inter
      ∧ ∀ key p v,
          pixel inter key p = Some v →
          pixel out key p =
            if decide (v = nodata) then pixel dataset key p else Some v.
Proof.
  intros Hwd Hwi Hcov. split; [done|]. simpl.
  set (f := λ k : string,
         default (NdArray (0, 0)%nat [])
           (out_k ← ds_get inter k; new_k ← ds_get dataset k;
            np_masked_assign (np_eq_scalar out_k nodata) out_k new_k)).
  assert (Hstep : ∀ k a, ds_get inter k = Some a →
            ∃ b r, ds_get dataset k = Some b ∧ shape b = shape a
              ∧ np_masked_assign (np_eq_scalar a nodata) a b = Some r
              ∧ f k = r).
  { intros k a Ha. destruct (covers_get _ _ _ _ Hcov Ha) as (b & Hb & Hs).
    assert (is_Some (np_masked_assign (np_eq_scalar a nodata) a b)) as [r Hr].
    { unfold np_masked_assign. rewrite decide_True; [eauto|]. simpl. by rewrite Hs. }
    exists b, r. repeat split; try done. unfold f. rewrite Ha. simpl.
    rewrite Hb. simpl. by rewrite Hr. }
  destruct (for_keys_replace (fill_nodata_key dataset) f inter
              (data_vars inter) inter) as (out & Hrun & Hvars & Hin & _).
  - apply Hwi.
  - apply ds_get_is_Some.
  - done.
  - intros pre k post out' Hkeys Hag. unfold fill_nodata_key.
    assert (k ∈ data_vars inter) as [a Ha]%ds_get_is_Some.
    { rewrite <- Hkeys. apply elem_of_app. right. apply elem_of_cons. by left. }
    rewrite Hag by (apply elem_of_cons; by left). rewrite Ha. simpl.
    destruct (Hstep k a Ha) as (b & r & Hb & _ & Hr & Hf).
    rewrite Hb. simpl. rewrite Hr. simpl. by rewrite Hf.
  - exists out. split; [done|]. split; [done|].
    intros key p v Hpx. unfold pixel in *.
    destruct (ds_get inter key) as [a|] eqn:Ha; simplify_eq/=.
    rewrite (Hin key) by by eapply ds_get_elem_of. simpl.
    destruct (Hstep key a Ha) as (b & r & Hb & Hs & Hr & ->).
    rewrite Hb. simpl.
    apply masked_assign_values in Hr as [_ Hr]. rewrite Hr. simpl.
    rewrite list_lookup_fmap, Hpx. simpl.
    assert (is_Some (values b !! p)) as [w Hw].
    { apply lookup_lt_is_Some.
      rewrite (wf_same_length b a); eauto using wf_dataset_get.
      by eapply lookup_lt_Some. }
    rewrite Hw. simpl. unfold nodata.
    destruct v as [z|]; cbn [value_eqb]; [|by case_decide].
    destruct (Z.eqb_spec z (-9999)); case_decide; by simplify_eq.
Qed.

Lemma ds_get_None ds k : k ∉ data_vars ds → ds_get ds k = None.
Proof.
  intros Hk. destruct (ds_get ds k) eqn:E; [|done].
  by apply ds_get_elem_of in E.
Qed.

Lemma on_grid_pixel_lt s ds key p v :
  on_grid s ds → pixel ds key p = Some v → (p < s.1 * s.2)%nat.
Proof.
  unfold pixel. intros Hg Hp.
  destruct (ds_get ds key) as [a|] eqn:Ha; simplify_eq/=.
  destruct (on_grid_get _ _ _ _ Hg Ha) as [<- Hwf].
  rewrite <- Hwf. by eapply lookup_lt_Some.
Qed.

Lemma on_grid_pixel_Some s ds key p :
  on_grid s ds → key ∈ data_vars ds → (p < s.1 * s.2)%nat →
  is_Some (pixel ds key p).
Proof.
  unfold pixel. intros Hg [a Ha]%ds_get_is_Some Hp. rewrite Ha. simpl.
  destruct (on_grid_get _ _ _ _ Hg Ha) as [<- Hwf].
  apply lookup_lt_is_Some. by rewrite Hwf.
Qed.

Lemma pixel_elem_of ds key p v : pixel ds key p = Some v → key ∈ data_vars ds.
Proof.
  unfold pixel. destruct (ds_get ds key) eqn:E; [|done].
  intros _. by eapply ds_get_elem_of.
Qed.

(** One criterion fold of [B] into the intermediate [A], when the
    criterion band is visited last: the mask is the same for every band. *)
Lemma criterion_fold cmp s (A B : Dataset) :
  on_grid s A → on_grid s B → data_vars A = data_vars B →
  last (data_vars A) = Some "ndvi"%string →
  ∃ r, for_keys (criterion_key cmp B) A (data_vars A) = Some r
       ∧ ∀ key p,
           pixel r key p =
             a ← pixel A key p; b ← pixel B key p;
             na ← pixel A "ndvi" p; nb ← pixel B "ndvi" p;
             Some (if cmp nb na : bool then b else a).
Proof.
  intros HA HB Hvars Hlast.
  assert ("ndvi"%string ∈ data_vars A) as HinA by by apply last_Some_elem_of.
  destruct (ds_get_is_Some A _ HinA) as [nA HnA].
  assert (is_Some (ds_get B "ndvi")) as [nB HnB]
    by (apply ds_get_is_Some; by rewrite <- Hvars).
  destruct (on_grid_get _ _ _ _ HA HnA) as [HsA _].
  destruct (on_grid_get _ _ _ _ HB HnB) as [HsB _].
  set (M := NdArray s (zip_with cmp (values nB) (values nA))).
  assert (HM : np_compare cmp nB nA = Some M).
  { unfold np_compare. rewrite decide_True by congruence. by rewrite HsB. }
  set (f := λ k : string,
         default (NdArray (0, 0)%nat [])
           (new_k ← ds_get B k; out_k ← ds_get A k;
            np_masked_assign M out_k new_k)).
  assert (Hstep : ∀ k a, ds_get A k = Some a →
            ∃ b r, ds_get B k = Some b
              ∧ np_masked_assign M a b = Some r ∧ f k = r).
  { intros k a Ha.
    assert (is_Some (ds_get B k)) as [b Hb].
    { apply ds_get_is_Some. rewrite <- Hvars. by eapply ds_get_elem_of. }
    destruct (on_grid_get _ _ _ _ HA Ha) as [Hsa _].
    destruct (on_grid_get _ _ _ _ HB Hb) as [Hsb _].
    assert (is_Some (np_masked_assign M a b)) as [r Hr].
    { unfold np_masked_assign. rewrite decide_True; [eauto|]. simpl. by subst. }
    exists b, r. repeat split; try done. unfold f. rewrite Hb. simpl.
    rewrite Ha. simpl. by rewrite Hr. }
  destruct (for_keys_replace (criterion_key cmp B) f A (data_vars A) A)
    as (r & Hrun & _ & Hin & Hout).
  - apply HA.
  - apply ds_get_is_Some.
  - done.
  - intros pre k post out' Hkeys Hag. unfold criterion_key.
    assert (k ∈ data_vars A) as [a Ha]%ds_get_is_Some.
    { rewrite <- Hkeys. apply elem_of_app. right. apply elem_of_cons. by left. }
    assert ("ndvi"%string ∈ k :: post) as Hnd.
    { apply last_Some_elem_of. by rewrite <- (last_app_cons pre), Hkeys. }
    destruct (Hstep k a Ha) as (b & r & Hb & Hr & Hf).
    rewrite Hb. simpl. rewrite HnB. simpl.
    rewrite (Hag _ Hnd), HnA. simpl. rewrite HM. simpl.
    rewrite Hag by (apply elem_of_cons; by left). rewrite Ha. simpl.
    rewrite Hr. simpl. by rewrite Hf.
  - exists r. split; [done|]. intros key p. unfold pixel.
    rewrite HnA, HnB. simpl.
    destruct (decide (key ∈ data_vars A)) as [Hk|Hk].
    + rewrite (Hin key Hk). simpl.
      destruct (ds_get_is_Some A key Hk) as [a Ha].
      destruct (Hstep key a Ha) as (b & r' & Hb & Hr & ->).
      rewrite Ha, Hb. simpl.
      apply masked_assign_values in Hr as [_ Hr]. rewrite Hr.
      unfold M. simpl. rewrite lookup_zip_with.
      destruct (values a !! p), (values b !! p), (values nA !! p),
        (values nB !! p); done.
    + rewrite (Hout key Hk), (ds_get_None A key Hk). done.
Qed.

(** Both orders of a two-element criterion fold, for a comparison that is
    strict and total on the numbers and false on NaN. *)
Lemma criterion_fold_both cmp s (A B : Dataset) :
  (∀ x, cmp x x = false) →
  (∀ x y, cmp x y = true → cmp y x = false) →
  (∀ a b, a ≠ b → cmp (Num a) (Num b) = false → cmp (Num b) (Num a) = true) →
  (∀ x, cmp NaN x = false ∧ cmp x NaN = false) →
  on_grid s A → on_grid s B → data_vars A = data_vars B →
  last (data_vars A) = Some "ndvi"%string →
  ∃ r1 r2,
    for_keys (criterion_key cmp B) A (data_vars A) = Some r1
    ∧ for_keys (criterion_key cmp A) B (data_vars B) = Some r2
    ∧ agree_off_ties A B r1 r2.
Proof.
  intros Hirr Hasym Htot Hnan HA HB Hvars Hlast.
  destruct (criterion_fold cmp s A B) as (r1 & Hr1 & Hp1); try done.
  destruct (criterion_fold cmp s B A) as (r2 & Hr2 & Hp2); try done.
  { by rewrite <- Hvars. }
  exists r1, r2. split; [done|]. split; [done|].
  assert ("ndvi"%string ∈ data_vars A) as HnA by by apply last_Some_elem_of.
  assert ("ndvi"%string ∈ data_vars B) as HnB by by rewrite <- Hvars.
  assert (Hdef : ∀ D D' key p v, on_grid s D → on_grid s D' →
            data_vars D = data_vars D' → "ndvi"%string ∈ data_vars D →
            pixel D key p = Some v →
            is_Some (pixel D' key p) ∧ is_Some (pixel D "ndvi" p)
            ∧ is_Some (pixel D' "ndvi" p)).
  { intros D D' key p v HD HD' Hv Hn Hpx.
    pose proof (on_grid_pixel_lt _ _ _ _ _ HD Hpx) as Hlt.
    apply pixel_elem_of in Hpx.
    repeat split; eapply on_grid_pixel_Some; eauto; by rewrite <- Hv. }
  split; [|split; [|intros key p Htie; split]].
  - intros p a b Ha Hb. rewrite Hp1, Hp2, Ha, Hb. simpl.
    destruct (cmp (Num b) (Num a)) eqn:E1, (cmp (Num a) (Num b)) eqn:E2;
      try done.
    + by rewrite (Hasym _ _ E1) in E2.
    + destruct (decide (a = b)) as [->|Hne]; [done|].
      by rewrite (Htot _ _ Hne E2) in E1.
  - intros key p a b Ha Hb Hne. rewrite Hp1, Hp2, Ha, Hb.
    destruct (pixel A key p) as [x|], (pixel B key p) as [y|];
      simpl; try done.
    destruct (cmp (Num b) (Num a)) eqn:E1, (cmp (Num a) (Num b)) eqn:E2;
      try done.
    + by rewrite (Hasym _ _ E1) in E2.
    + by rewrite (Htot _ _ Hne E2) in E1.
  - rewrite Hp1.
    destruct (pixel A key p) as [a|] eqn:Ea; [|done].
    destruct (Hdef A B key p a) as ([b Hb] & [na Hna] & [nb Hnb]); try done.
    rewrite Hna, Hnb in Htie. rewrite Hb, Hna, Hnb. simpl.
    assert (Hc : cmp nb na = false).
    { destruct Htie as [Htie|[Htie|Htie]]; simplify_eq;
        [apply Hirr|apply Hnan|apply Hnan]. }
    by rewrite Hc.
  - rewrite Hp2.
    destruct (pixel B key p) as [b|] eqn:Eb; [|done].
    destruct (Hdef B A key p b) as ([a Ha] & [nb Hnb] & [na Hna]); try done.
    rewrite Hna, Hnb in Htie. rewrite Ha, Hna, Hnb. simpl.
    assert (Hc : cmp na nb = false).
    { destruct Htie as [Htie|[Htie|Htie]]; simplify_eq;
        [apply Hirr|apply Hnan|apply Hnan]. }
    by rewrite Hc.
Qed.

Lemma fill_nodata_spec_witness :
  (wf_dataset CombineExamples.fresh ∧ wf_dataset CombineExamples.holes
   ∧ covers CombineExamples.fresh CombineExamples.holes)
  ∧ ∃ out,
      fill_nodata CombineExamples.fresh (Some CombineExamples.holes) = Some out
      ∧ pixel out "red" 0 = Some (Num 5) ∧ pixel out "red" 1 = Some (Num 7).
Proof.
  assert (H : wf_dataset CombineExamples.fresh ∧ wf_dataset CombineExamples.holes
              ∧ covers CombineExamples.fresh CombineExamples.holes).
  { split; [|split]; apply (bool_decide_unpack _); vm_compute; exact I. }
  split; [exact H|].
  destruct H as (H1 & H2 & H3).
  destruct (fill_nodata_spec _ _ H1 H2 H3) as (_ & out & Hout & _ & Hpx).
  exists out. split; [exact Hout|].
  split; [exact (Hpx "red"%string 0%nat (Num (-9999)) eq_refl)
         |exact (Hpx "red"%string 1%nat (Num 7) eq_refl)].
Defined.

(** C3 (amended).  For two datasets on one grid with the same bands in the
    same order, the criterion band [ndvi] last: folding [[A; B]] and
    [[B; A]] with [max_value] (and with [min_value]) yields the same [ndvi]
    value at every pixel where the criteria of [A] and [B] are both numbers,
    the same value in every band at every pixel where they are different
    numbers, and at a pixel where they are equal, or where one of them is
    NaN, each fold keeps the values of the dataset folded first. *)
Theorem criterion_fold_order s (A B : Dataset) :
  on_grid s A → on_grid s B → data_vars A = data_vars B →
  last (data_vars A) = Some "ndvi"%string →
  (∃ r1 r2,
      fold2 max_value A B = Some r1 ∧ fold2 max_value B A = Some r2
      ∧ agree_off_ties A B r1 r2)
  ∧ (∃ r1 r2,
      fold2 min_value A B = Some r1 ∧ fold2 min_value B A = Some r2
      ∧ agree_off_ties A B r1 r2).
Proof.
  intros HA HB Hvars Hlast. split.
  - apply (criterion_fold_both value_gtb s A B); try done.
    + intros [a|]; simpl; [lia|done].
    + intros [a|] [b|]; simpl; try done. lia.
    + intros a b Hne; simpl. lia.
    + intros x. split; [done|by destruct x].
  - apply (criterion_fold_both value_ltb s A B); try done.
    + intros [a|]; simpl; [lia|done].
    + intros [a|] [b|]; simpl; try done. lia.
    + intros a b Hne; simpl. lia.
    + intros x. split; [done|by destruct x].
Qed.

Lemma criterion_fold_order_witness :
  (on_grid (1, 1)%nat CombineExamples.tieA ∧ on_grid (1, 1)%nat CombineExamples.tieB
   ∧ data_vars CombineExamples.tieA = data_vars CombineExamples.tieB
   ∧ last (data_vars CombineExamples.tieA) = Some "ndvi"%string)
  ∧ ∃ r1 r2,
      fold2 max_value CombineExamples.tieA CombineExamples.tieB = Some r1
      ∧ fold2 max_value CombineExamples.tieB CombineExamples.tieA = Some r2
      ∧ agree_off_ties CombineExamples.tieA CombineExamples.tieB r1 r2.
Proof.
  assert (H1 : on_grid (1, 1)%nat CombineExamples.tieA)
    by (apply (bool_decide_unpack _); vm_compute; exact I).
  assert (H2 : on_grid (1, 1)%nat CombineExamples.tieB)
    by (apply (bool_decide_unpack _); vm_compute; exact I).
  split; [exact (conj H1 (conj H2 (conj eq_refl eq_refl)))|].
  exact (proj1 (criterion_fold_order _ _ _ H1 H2 eq_refl eq_refl)).
Defined.

(** C3 fails as stated: at a pixel where the criterion values are equal
    each order keeps the other bands of the dataset folded first. *)
Lemma criterion_fold_tie_counterexample :
  pixel CombineExamples.tieA "ndvi" 0 = pixel CombineExamples.tieB "ndvi" 0
  ∧ (∃ r1 r2,
        max_value CombineExamples.tieB (max_value CombineExamples.tieA None) = Some r1
        ∧ max_value CombineExamples.tieA (max_value CombineExamples.tieB None) = Some r2
        ∧ pixel r1 "red" 0 = Some (Num 10) ∧ pixel r2 "red" 0 = Some (Num 20))
  ∧ max_value CombineExamples.tieB (max_value CombineExamples.tieA None)
    ≠ max_value CombineExamples.tieA (max_value CombineExamples.tieB None)
  ∧ min_value CombineExamples.tieB (min_value CombineExamples.tieA None)
    ≠ min_value CombineExamples.tieA (min_value CombineExamples.tieB None).
Proof.
  split; [done|]. split; [|split; vm_compute; discriminate].
  eexists _, _. repeat split; vm_compute; reflexivity.
Qed.

(** A NaN criterion has the same effect as a tie: whichever dataset is
    folded first stays, in the criterion band too, so the two orders give
    two different [ndvi] bands. *)
Example criterion_fold_nan :
  fold2 max_value CombineExamples.nanA CombineExamples.tieB
  = Some CombineExamples.nanA
  ∧ fold2 max_value CombineExamples.tieB CombineExamples.nanA
    = Some CombineExamples.tieB
  ∧ fold2 min_value CombineExamples.nanA CombineExamples.tieB
    = Some CombineExamples.nanA
  ∧ fold2 min_value CombineExamples.tieB CombineExamples.nanA
    = Some CombineExamples.tieB.
Proof. repeat split; reflexivity. Qed.

(** The criterion band must come last: a band visited after [ndvi] sees
    the already updated criterion and is never replaced. *)
Example criterion_first_bands_stale :
  fold2 max_value CombineExamples.ndvi_firstA CombineExamples.ndvi_firstB
  = Some [("ndvi"%string, CombineExamples.one_pixel 2);
          ("red"%string, CombineExamples.one_pixel 10)].
Proof. reflexivity. Qed.

End CombineFacts.

(** * Facts about the chunk worker *)

Module ChunkFacts.
Import Chunk.

Lemma add_clean_pixels_lookup t c (md : acquisition_map) d :
  add_clean_pixels t c md !! d
  = if decide (t = d) then Some (default 0 (md !! d) + c)%nat else md !! d.
Proof.
  unfold add_clean_pixels.
  destruct (decide (t = d)) as [->|Hne].
  - rewrite lookup_insert_eq. f_equal. f_equal.
    case_decide as Hd.
    + by rewrite lookup_total_insert_eq, Hd.
    + rewrite lookup_total_alt. done.
  - rewrite lookup_insert_ne by done.
    case_decide; [by rewrite lookup_insert_ne|done].
Qed.

(** The stored count of a date never decreases under a tally. *)
Lemma add_clean_pixels_mono t c (md : acquisition_map) d :
  (default 0 (md !! d) ≤ default 0 (add_clean_pixels t c md !! d))%nat.
Proof.
  rewrite add_clean_pixels_lookup. case_decide; simpl; lia.
Qed.

Section worker.

Context {RawData Mosaic : Type}.
Variable status_at : nat → option string.
Variable get_dataset_by_extent : Z * Z → RawData.
Variable clear_mask_of : RawData → option (list (list bool)).
Variable drop_cf_mask : RawData → RawData.
Variable run_processing_method :
  Options.processing_method_ref → RawData → list (list bool) → option Mosaic → Mosaic.
Variable processing_options : Options.processing_options.
Variable query_id : string.
Variable acquisition_list : list Z.

Abbreviation step := (chunk_step status_at get_dataset_by_extent clear_mask_of
                    drop_cf_mask run_processing_method processing_options
                    acquisition_list).
Abbreviation loop := (chunk_loop status_at get_dataset_by_extent clear_mask_of
                    drop_cf_mask run_processing_method processing_options
                    acquisition_list).
Abbreviation iter := (chunk_iter status_at get_dataset_by_extent clear_mask_of
                    drop_cf_mask run_processing_method processing_options
                    acquisition_list).
Abbreviation task := (generate_TOOL_chunk status_at get_dataset_by_extent
                    clear_mask_of drop_cf_mask run_processing_method
                    processing_options query_id acquisition_list).

(** The metadata of a state is the additive tally of its observations. *)
Definition tallied (st : loop_state (Mosaic := Mosaic)) : Prop :=
  ∀ d, acquisition_metadata st !! d = date_total (observed st) d.

Lemma tally_slices_tallied ti :
  ∀ slices k md obs md' obs',
    tally_slices acquisition_list ti k slices md obs = Some (md', obs') →
    (∀ d, md !! d = date_total obs d) →
    ∀ d, md' !! d = date_total obs' d.
Proof.
  induction slices as [|slice slices IH]; intros k md obs md' obs' Hrun Hinv.
  - by simplify_eq/=.
  - simpl in Hrun.
    destruct (py_index acquisition_list (ti + Z.of_nat k)) as [t|]; [|done].
    simpl in Hrun. eapply IH; [exact Hrun|].
    intros d. rewrite add_clean_pixels_lookup. simpl.
    case_decide; by rewrite ?Hinv.
Qed.

Lemma tally_slices_mono ti :
  ∀ slices k md obs md' obs',
    tally_slices acquisition_list ti k slices md obs = Some (md', obs') →
    ∀ d, (default 0 (md !! d) ≤ default 0 (md' !! d))%nat.
Proof.
  induction slices as [|slice slices IH]; intros k md obs md' obs' Hrun d.
  - by simplify_eq/=.
  - simpl in Hrun.
    destruct (py_index acquisition_list (ti + Z.of_nat k)) as [t|]; [|done].
    simpl in Hrun. etrans; [|eapply IH; exact Hrun].
    apply add_clean_pixels_mono.
Qed.

(** What one pass does to the cursor, the check counter and the tallies. *)
Lemma chunk_step_continue st st' :
  step st = Continue st' →
  time_index st' = time_index st + stride processing_options
  ∧ polls st' = S (polls st)
  ∧ (tallied st → tallied st')
  ∧ (∀ d, (default 0 (acquisition_metadata st !! d)
           ≤ default 0 (acquisition_metadata st' !! d))%nat).
Proof.
  unfold chunk_step. intros H.
  destruct (status_at (polls st)) as [status|]; [|done].
  case_decide; [done|].
  destruct (time_range _ _ _) as [window|]; [|done].
  destruct (clear_mask_of _) as [mask|].
  - destruct (tally_slices _ _ _ _ _ _) as [[md obs]|] eqn:Ht; [|done].
    simplify_eq/=. repeat split.
    + intros Hinv. unfold tallied; simpl. by eapply tally_slices_tallied.
    + by eapply tally_slices_mono.
  - simplify_eq/=. repeat split; done.
Qed.

Lemma chunk_loop_tallied fuel :
  ∀ st st', loop fuel st = Some (Exited st') → tallied st → tallied st'.
Proof.
  induction fuel as [|fuel IH]; intros st st' Hrun Hinv; simpl in Hrun.
  - case_decide; by simplify_eq.
  - case_decide; [|by simplify_eq].
    destruct (step st) as [st1| |] eqn:Hs; [|done..].
    apply chunk_step_continue in Hs as (_ & _ & Hs & _). eauto.
Qed.

Lemma chunk_loop_mono fuel :
  ∀ st st', loop fuel st = Some (Exited st') →
    ∀ d, (default 0 (acquisition_metadata st !! d)
          ≤ default 0 (acquisition_metadata st' !! d))%nat.
Proof.
  induction fuel as [|fuel IH]; intros st st' Hrun d; simpl in Hrun.
  - case_decide; by simplify_eq.
  - case_decide; [|by simplify_eq].
    destruct (step st) as [st1| |] eqn:Hs; [|done..].
    apply chunk_step_continue in Hs as (_ & _ & _ & Hs).
    etrans; [apply Hs|]. by eapply IH.
Qed.

(** With a positive stride the loop ends: fuel for the distance between the
    cursor and the end of the list is enough. *)
Lemma chunk_loop_total fuel :
  0 < stride processing_options →
  ∀ st, (Z.to_nat (len acquisition_list - time_index st) ≤ fuel)%nat →
        is_Some (loop fuel st).
Proof.
  intros Hpos. induction fuel as [|fuel IH]; intros st Hfuel; simpl.
  - case_decide; [lia|eauto].
  - case_decide; [|eauto].
    destruct (step st) as [st1| |] eqn:Hs; [|eauto..].
    apply chunk_step_continue in Hs as (Hti & _). apply IH. lia.
Qed.

(** Passes compose: reaching [st] in [k] passes leaves the rest of the run
    to the loop started at [st]. *)
Lemma chunk_iter_loop k :
  ∀ st0 st fuel, iter k st0 = Some st → loop (k + fuel) st0 = loop fuel st.
Proof.
  induction k as [|k IH]; intros st0 st fuel H; simpl in *.
  - by simplify_eq.
  - case_decide; [|done].
    destruct (step st0) as [st1| |]; [|done..]. by apply IH.
Qed.

(** The loop is only left early by a bare [return], by ["CANCEL"] or by an
    exception. *)
Lemma chunk_step_return st r : step st = Return r → r = RetNone ∨ r = RetCancel.
Proof.
  unfold chunk_step.
  destruct (status_at (polls st)) as [status|]; [|intros [= <-]; by left].
  case_decide; [intros [= <-]; by right|].
  destruct (time_range _ _ _) as [window|]; [|done].
  destruct (clear_mask_of _) as [mask|]; [|done].
  by destruct (tally_slices _ _ _ _ _ _) as [[md obs]|].
Qed.

Lemma chunk_loop_stopped fuel :
  ∀ st r st', loop fuel st = Some (Stopped r st') →
    r = Returned RetNone ∨ r = Returned RetCancel ∨ r = Raised.
Proof.
  induction fuel as [|fuel IH]; intros st r st' Hrun; simpl in Hrun.
  - case_decide; by simplify_eq.
  - case_decide; [|by simplify_eq].
    destruct (step st) as [st1|r1|] eqn:Hs; [by eapply IH| |].
    + simplify_eq. apply chunk_step_return in Hs as [->| ->]; auto.
    + simplify_eq. auto.
Qed.

(** The metadata a chunk hands back is the tally of the observations of the
    run it comes from. *)
Lemma chunk_metadata_total fuel time_num chunk_num files path md files' :
  task fuel time_num chunk_num files
  = Some (Returned (RetPair (Some path) (Some md)), files') →
  ∃ st, loop fuel initial = Some (Exited st)
        ∧ md = acquisition_metadata st
        ∧ ∀ d, md !! d = date_total (observed st) d.
Proof.
  unfold generate_TOOL_chunk.
  destruct (loop fuel initial) as [[st|r st]|] eqn:Hrun; [| |done].
  2:{ intros Heq. apply chunk_loop_stopped in Hrun. simplify_eq.
      destruct Hrun as [?|[?|?]]; done. }
  destruct (iteration_data st); [|done]. intros ?; simplify_eq.
  exists st. repeat split; try done.
  eapply chunk_loop_tallied; [exact Hrun|]. intros d. done.
Qed.

(** C6.  When the check at the start of a pass the loop reaches reports
    CANCEL, the task returns ["CANCEL"] and the scratch files are as they
    were; in any run, a file is written only after the loop has exited
    normally with a mosaic. *)
Theorem cancel_stops_without_scratch k st fuel time_num chunk_num files :
  iter k initial = Some st →
  time_index st < len acquisition_list →
  status_at (polls st) = Some "CANCEL"%string →
  (k < fuel)%nat →
  task fuel time_num chunk_num files = Some (Returned RetCancel, files)
  ∧ ∀ fuel' r files',
      task fuel' time_num chunk_num files = Some (r, files') →
      files' ≠ files →
      ∃ st' data,
        loop fuel' initial = Some (Exited st')
        ∧ iteration_data st' = Some data
        ∧ files' = (geo_path query_id time_num chunk_num, data) :: files.
Proof.
  intros Hk Hlt Hc Hfuel. split.
  - unfold generate_TOOL_chunk.
    replace fuel with (k + S (fuel - S k))%nat by lia.
    rewrite (chunk_iter_loop k _ st) by done. simpl.
    rewrite decide_True by done. unfold chunk_step. rewrite Hc.
    by rewrite decide_True.
  - unfold generate_TOOL_chunk. intros fuel' r files' Hrun Hne.
    destruct (loop fuel' initial) as [[st'|r' st']|]; [| |done].
    + destruct (iteration_data st') as [data|] eqn:Hd; simplify_eq/=.
      eauto.
    + by simplify_eq.
Qed.

(** With [time_slices_per_iteration] unset a pass moves the cursor by
    10000, wherever the list ends. *)
Lemma unset_stride_cursor st st' :
  Options.time_slices_per_iteration processing_options = None →
  step st = Continue st' →
  time_index st' = time_index st + 10000.
Proof.
  intros Hnone Hstep.
  pose proof (chunk_step_continue _ _ Hstep) as (Hti & _).
  unfold stride in Hti. by rewrite Hnone in Hti.
Qed.

(** With a positive stride the task returns. *)
Lemma generate_TOOL_chunk_total fuel time_num chunk_num files :
  0 < stride processing_options →
  (Z.to_nat (len acquisition_list) ≤ fuel)%nat →
  is_Some (task fuel time_num chunk_num files).
Proof.
  intros Hpos Hfuel. unfold generate_TOOL_chunk.
  destruct (chunk_loop_total fuel Hpos initial) as [[st|r st] ->].
  - simpl. lia.
  - destruct (iteration_data st); eauto.
  - eauto.
Qed.

(** When [time_slices_per_iteration] is unset and the list has at most
    10000 acquisitions, the loop is left after its first pass. *)
Lemma unset_stride_single_pass st fuel :
  Options.time_slices_per_iteration processing_options = None →
  len acquisition_list ≤ unset_stride →
  step initial = Continue st →
  loop fuel st = Some (Exited st) ∧ length (fetched st) = 1%nat.
Proof.
  intros Hnone Hlen Hstep.
  pose proof (chunk_step_continue _ _ Hstep) as (Hti & _).
  unfold stride in Hti. rewrite Hnone in Hti. simpl in Hti.
  split.
  - destruct fuel; simpl; rewrite decide_False; try done; lia.
  - unfold chunk_step in Hstep. simpl in Hstep.
    destruct (status_at 0) as [status|]; [|done].
    case_decide; [done|].
    destruct (time_range _ _ _) as [window|]; [|done].
    destruct (clear_mask_of _) as [mask|].
    + destruct (tally_slices _ _ _ _ _ _) as [[md obs]|]; [|done].
      by simplify_eq.
    + by simplify_eq.
Qed.

End worker.

(** The most-recent chunk of the three-acquisition scenario: one pass over
    the window from the oldest date to one second after the newest, one
    tally per date, one scratch file. *)
Example most_recent_chunk :
  Chunk.generate_TOOL_chunk (Mosaic := Z * Z)
    ChunkExamples.never_cancelled (λ w, w) ChunkExamples.slices_in (λ w, w)
    ChunkExamples.keep_window Options.most_recent "q" [3; 2; 1] 2 0 0 []
  = Some (Returned
            (RetPair (Some "/ui_results_temp/q/geo_chunk_0_0.nc"%string)
               (Some {[ 3 := 1%nat; 2 := 1%nat; 1 := 1%nat ]})),
          [("/ui_results_temp/q/geo_chunk_0_0.nc"%string, (1, 4))]).
Proof. vm_compute. reflexivity. Qed.

(** C4 on the code: with [time_slices_per_iteration] unset the cursor
    moves by 10000, not to the end of the list.  Over 10001 acquisitions the
    body runs twice: it first requests the whole range, then the range of
    the last acquisition again, whose clean pixels are tallied twice. *)
Lemma unset_stride_second_pass :
  ChunkExamples.report (ChunkExamples.median_run (Z.to_nat 10001) 3) 10000 9999
  = Some ([(0, 10001); (10000, 10001)], Some 2%nat, Some 1%nat).
Proof. vm_compute. reflexivity. Qed.

Lemma cancel_stops_without_scratch_witness :
  Chunk.generate_TOOL_chunk (Mosaic := Z * Z)
    ChunkExamples.cancelled_at_1 (λ w, w) ChunkExamples.slices_in (λ w, w)
    ChunkExamples.keep_window Options.least_recent "q" (ChunkExamples.dates 3)
    5 0 0 []
  = Some (Returned RetCancel, []).
Proof.
  refine (proj1 (cancel_stops_without_scratch
                   ChunkExamples.cancelled_at_1 (λ w, w) ChunkExamples.slices_in
                   (λ w, w) ChunkExamples.keep_window Options.least_recent
                   "q" (ChunkExamples.dates 3) 1 _ 5 0 0 [] _ _ _ _)).
  - vm_compute. reflexivity.
  - vm_compute. reflexivity.
  - vm_compute. reflexivity.
  - lia.
Defined.

End ChunkFacts.

(** * Facts about the query task *)

Module OrchestratorFacts.
Import Orchestrator.

(** ** The shapes of a run *)

(** The join loops when no chunk was planned for a time range: nothing is
    awaited, and the concatenation of no tile raises. *)
Lemma join_groups_no_chunks env options :
  lat_ranges env = [] →
  ∀ groups result d am,
    join_groups env options groups result d am
    = ([], result, match groups with [] => Folded d am | _ => FoldFailed end).
Proof.
  intros Hlat groups result d am. destruct groups as [|t groups]; [done|].
  simpl. by rewrite Hlat.
Qed.

(** The events up to the creation of the scratch directory, and the ledger
    object they leave. *)
Definition planned (env : environment) : list event :=
  ResultCreated generate_result :: MetadataCreated :: SplitTask
    :: (if scratch_exists env then [] else [Mkdir]).

Definition planned_result (env : environment) : Result :=
  set_total generate_result (total_work_units env).

(** Every run has one of six shapes.  A run that gets as far as the
    planning never gets past the dispatch: either the first [.delay] raises,
    or, with an empty plan, the loops that follow raise. *)
Inductive run_shape (env : environment) : run → Prop :=
| shape_repeat :
    (1 < queries_count env)%nat →
    run_shape env
      (Run (if decide (0 < results_count env)%nat then [QueriesUpdated] else [])
         Returns)
| shape_unstarted :
    queries_count env = 0%nat ∨ result_type_found env = false →
    run_shape env (Run [] Raises)
| shape_no_metadata :
    queries_count env = 1%nat → result_type_found env = true →
    scene_metadata env = None →
    run_shape env
      (Run (ResultCreated generate_result
              :: error_with_message (scratch_exists env) generate_result
                   generic_message)
         Returns)
| shape_no_acquisitions :
    queries_count env = 1%nat → result_type_found env = true →
    is_Some (scene_metadata env) → acquisitions env = [] →
    run_shape env
      (Run (ResultCreated generate_result :: MetadataCreated
              :: error_with_message (scratch_exists env) generate_result
                   no_acquisitions_message)
         Returns)
| shape_unknown_compositor :
    queries_count env = 1%nat → result_type_found env = true →
    is_Some (scene_metadata env) → acquisitions env ≠ [] →
    Options.processing_algorithms (compositor env) = None →
    run_shape env
      (Run (ResultCreated generate_result :: MetadataCreated
              :: error_with_message (scratch_exists env) generate_result
                   generic_message)
         Raises)
| shape_planned options :
    queries_count env = 1%nat → result_type_found env = true →
    is_Some (scene_metadata env) → acquisitions env ≠ [] →
    Options.processing_algorithms (compositor env) = Some options →
    run_shape env
      (Run (planned env
              ++ error_with_message true (planned_result env) generic_message)
         Raises).

Lemma len_cons {A} (x : A) l : len (x :: l) = 1 + len l.
Proof. unfold len. simpl. lia. Qed.

Lemma try_body_planned env options :
  acquisitions env ≠ [] →
  Options.processing_algorithms (compositor env) = Some options →
  try_body env generate_result
  = (SplitTask :: (if scratch_exists env then [] else [Mkdir]),
     planned_result env, true, Failed).
Proof.
  intros Hacq Hopt. unfold try_body.
  rewrite decide_False.
  2:{ destruct (acquisitions env); [done|]. rewrite len_cons. unfold len. lia. }
  rewrite Hopt. unfold dispatch.
  destruct (time_ranges env) as [|tr trs] eqn:Htr.
  { simpl. by rewrite !app_nil_r. }
  destruct (lat_ranges env) as [|lat lats] eqn:Hlat.
  - cbn [negb]. rewrite (join_groups_no_chunks env options Hlat).
    simpl. by rewrite !app_nil_r.
  - simpl. by rewrite !app_nil_r.
Qed.

Lemma create_cloudfree_mosaic_shape env :
  run_shape env (create_cloudfree_mosaic env).
Proof.
  unfold create_cloudfree_mosaic.
  destruct (decide (1 < queries_count env)%nat) as [Hq|Hq]; [by constructor|].
  destruct (decide (queries_count env = 0%nat)) as [Hq0|Hq0].
  { apply shape_unstarted. by left. }
  destruct (result_type_found env) eqn:Hrt; simpl;
    [|apply shape_unstarted; by right].
  assert (queries_count env = 1%nat) as Hq1 by lia.
  destruct (scene_metadata env) as [sm|] eqn:Hsm; [|by constructor].
  assert (is_Some (scene_metadata env)) as Hmeta by (rewrite Hsm; eauto).
  destruct (decide (acquisitions env = [])) as [Hacq|Hacq].
  { unfold try_body. rewrite decide_True by (rewrite Hacq; unfold len; simpl; lia).
    by apply shape_no_acquisitions. }
  destruct (Options.processing_algorithms (compositor env)) as [options|] eqn:Hopt.
  - rewrite (try_body_planned env options Hacq Hopt).
    pose proof (shape_planned env options Hq1 Hrt Hmeta Hacq Hopt) as Hshape.
    unfold planned in Hshape. by rewrite <- !app_comm_cons in *.
  - unfold try_body. rewrite decide_False.
    2:{ destruct (acquisitions env); [done|]. rewrite len_cons. unfold len. lia. }
    rewrite Hopt. by apply shape_unknown_compositor.
Qed.

Ltac shapes env :=
  destruct (create_cloudfree_mosaic_shape env)
    as [ Hrepeat
       | Hunstarted
       | Hq1 Hrt Hmeta
       | Hq1 Hrt Hmeta Hnone
       | Hq1 Hrt Hmeta Hsome Hopt
       | options Hq1 Hrt Hmeta Hsome Hopt ];
  cbn [trace result_of].

(** ** What a trace is made of *)










(** ** The theorems *)

(** C10.  When more than one query row matches at entry, the task returns
    at once: its only possible effect is [queries.update(complete=True)],
    done exactly when a result row for the query exists; there is no
    planning, no dispatch and no ledger update. *)
Theorem repeat_query_returns env :
  (1 < queries_count env)%nat →
  let r := create_cloudfree_mosaic env in
  result_of r = Returns
  ∧ trace r = (if decide (0 < results_count env)%nat then [QueriesUpdated] else [])
  ∧ (QueriesUpdated ∈ trace r ↔ (0 < results_count env)%nat)
  ∧ (SplitTask ∉ trace r)
  ∧ (∀ t c, Delay t c ∉ trace r)
  ∧ (∀ s, ResultSaved s ∉ trace r).
Proof.
  intros Hq. unfold create_cloudfree_mosaic. rewrite decide_True by done. simpl.
  split; [done|]. split; [done|].
  case_decide; repeat split.
  - done.
  - intros _. by apply list_elem_of_singleton.
  - by intros ?%list_elem_of_singleton.
  - intros t c. by intros ?%list_elem_of_singleton.
  - intros s. by intros ?%list_elem_of_singleton.
  - by intros ?%elem_of_nil.
  - done.
  - by intros ?%elem_of_nil.
  - intros t c. by intros ?%elem_of_nil.
  - intros s. by intros ?%elem_of_nil.
Qed.

Lemma repeat_query_returns_witness :
  (1 < queries_count OrchestratorExamples.repeated)%nat
  ∧ trace (create_cloudfree_mosaic OrchestratorExamples.repeated) = [QueriesUpdated].
Proof.
  assert (H : (1 < queries_count OrchestratorExamples.repeated)%nat)
    by (vm_compute; lia).
  split; [exact H|].
  exact (proj1 (proj2 (repeat_query_returns OrchestratorExamples.repeated H))).
Defined.










End OrchestratorFacts.


(** * More facts about the combination methods *)

Module CombineFoldFacts.
Import Combine CombineFold CombineFacts.

Lemma elem_of_ds_get ds k a :
  NoDup (data_vars ds) → (k, a) ∈ ds → ds_get ds k = Some a.
Proof.
  unfold data_vars. induction ds as [|[k0 b] ds IH]; csimpl; intros Hnd Hin.
  - by apply elem_of_nil in Hin.
  - apply NoDup_cons in Hnd as [Hk0 Hnd].
    apply elem_of_cons in Hin as [Heq|Hin].
    + simplify_eq. by rewrite decide_True.
    + rewrite decide_False; [by apply IH|].
      intros ->. apply Hk0. apply list_elem_of_fmap. by exists (k, a).
Qed.

Lemma Forall_ds_set (P : ndarray value → Prop) ds key a :
  Forall (λ ka, P ka.2) ds → P a → Forall (λ ka, P ka.2) (ds_set ds key a).
Proof.
  intros Hall Ha. induction Hall as [|[k0 b] ds Hb Hall IH]; simpl.
  - constructor.
  - destruct (decide (k0 = key)); constructor; done.
Qed.

Lemma on_grid_ds_set s ds key a :
  on_grid s ds → shape a = s → wf_array a → on_grid s (ds_set ds key a).
Proof.
  intros [Hnd Hall] Hs Hwf. split; [by rewrite data_vars_set|].
  by apply (Forall_ds_set (λ b, shape b = s ∧ wf_array b)).
Qed.

Lemma masked_assign_grid s mask t src r :
  shape t = s → wf_array t → wf_array src →
  length (values mask) = length (values t) →
  np_masked_assign mask t src = Some r →
  shape r = s ∧ wf_array r.
Proof.
  unfold np_masked_assign, wf_array. intros Hs Ht Hsrc Hm.
  case_decide as Hshape; [|done]. intros [= <-]. simpl.
  split; [done|]. destruct Hshape as [Hms Hmt].
  rewrite !length_zip_with, Hm, Hsrc, Ht, <- Hms, Hmt. lia.
Qed.

(** A loop whose body keeps a dataset on its grid keeps it there. *)
Lemma for_keys_grid s body :
  (∀ out k out', on_grid s out → body out k = Some out' →
                 on_grid s out' ∧ data_vars out' = data_vars out) →
  ∀ keys out r, on_grid s out → for_keys body out keys = Some r →
                on_grid s r ∧ data_vars r = data_vars out.
Proof.
  intros Hbody. induction keys as [|k keys IH]; intros out r Hout Hrun;
    simpl in Hrun.
  - by simplify_eq.
  - destruct (body out k) as [out1|] eqn:Hstep; [|done]. simpl in Hrun.
    destruct (Hbody _ _ _ Hout Hstep) as [Hg1 Hv1].
    destruct (IH _ _ Hg1 Hrun) as [Hg Hv]. split; [done|congruence].
Qed.

Lemma fill_nodata_key_grid s B out k out' :
  on_grid s B → on_grid s out → fill_nodata_key B out k = Some out' →
  on_grid s out' ∧ data_vars out' = data_vars out.
Proof.
  unfold fill_nodata_key. intros HB Hout Hrun.
  destruct (ds_get out k) as [t|] eqn:Ht; [|done]. simpl in Hrun.
  destruct (ds_get B k) as [src|] eqn:Hsrc; [|done]. simpl in Hrun.
  destruct (np_masked_assign _ _ _) as [r|] eqn:Hr; [|done]. simplify_eq/=.
  destruct (on_grid_get _ _ _ _ Hout Ht) as [Hst Hwt].
  destruct (on_grid_get _ _ _ _ HB Hsrc) as [_ Hws].
  apply (masked_assign_grid s) in Hr as [Hsr Hwr]; try done.
  - split; [by apply on_grid_ds_set|apply data_vars_set].
  - simpl. by rewrite length_fmap.
Qed.

Lemma criterion_key_grid cmp s B out k out' :
  on_grid s B → on_grid s out → criterion_key cmp B out k = Some out' →
  on_grid s out' ∧ data_vars out' = data_vars out.
Proof.
  unfold criterion_key. intros HB Hout Hrun.
  destruct (ds_get B k) as [src|] eqn:Hsrc; [|done]. simpl in Hrun.
  destruct (ds_get B "ndvi") as [nB|] eqn:HnB; [|done]. simpl in Hrun.
  destruct (ds_get out "ndvi") as [nO|] eqn:HnO; [|done]. simpl in Hrun.
  destruct (np_compare cmp nB nO) as [mask|] eqn:Hmask; [|done]. simpl in Hrun.
  destruct (ds_get out k) as [t|] eqn:Ht; [|done]. simpl in Hrun.
  destruct (np_masked_assign _ _ _) as [r|] eqn:Hr; [|done]. simplify_eq/=.
  destruct (on_grid_get _ _ _ _ Hout Ht) as [Hst Hwt].
  destruct (on_grid_get _ _ _ _ HB Hsrc) as [_ Hws].
  destruct (on_grid_get _ _ _ _ HB HnB) as [HsB HwB].
  destruct (on_grid_get _ _ _ _ Hout HnO) as [HsO HwO].
  apply (masked_assign_grid s) in Hr as [Hsr Hwr]; try done.
  - split; [by apply on_grid_ds_set|apply data_vars_set].
  - unfold np_compare in Hmask. case_decide; [|done]. simplify_eq/=.
    rewrite length_zip_with. unfold wf_array in *.
    rewrite HwB, HwO, Hwt, HsB, HsO. lia.
Qed.

(** One [fill_nodata] call on a grid, pixel by pixel. *)
Lemma fill_nodata_pixels s (A B : Dataset) :
  on_grid s A → on_grid s B → data_vars A = data_vars B →
  ∃ r, fill_nodata B (Some A) = Some r
       ∧ on_grid s r ∧ data_vars r = data_vars A
       ∧ ∀ key p,
           pixel r key p =
             a ← pixel A key p; b ← pixel B key p;
             Some (if value_eqb a nodata then b else a).
Proof.
  intros HA HB Hvars. simpl.
  set (f := λ k : string,
         default (NdArray (0, 0)%nat [])
           (out_k ← ds_get A k; new_k ← ds_get B k;
            np_masked_assign (np_eq_scalar out_k nodata) out_k new_k)).
  assert (Hstep : ∀ k a, ds_get A k = Some a →
            ∃ b r, ds_get B k = Some b
              ∧ np_masked_assign (np_eq_scalar a nodata) a b = Some r
              ∧ f k = r).
  { intros k a Ha.
    assert (is_Some (ds_get B k)) as [b Hb].
    { apply ds_get_is_Some. rewrite <- Hvars. by eapply ds_get_elem_of. }
    destruct (on_grid_get _ _ _ _ HA Ha) as [Hsa _].
    destruct (on_grid_get _ _ _ _ HB Hb) as [Hsb _].
    assert (is_Some (np_masked_assign (np_eq_scalar a nodata) a b)) as [r Hr].
    { unfold np_masked_assign. rewrite decide_True; [eauto|]. simpl. by subst. }
    exists b, r. repeat split; try done. unfold f. rewrite Ha. simpl.
    rewrite Hb. simpl. by rewrite Hr. }
  destruct (for_keys_replace (fill_nodata_key B) f A (data_vars A) A)
    as (r & Hrun & Hdv & Hin & Hout).
  - apply HA.
  - apply ds_get_is_Some.
  - done.
  - intros pre k post out' Hkeys Hag. unfold fill_nodata_key.
    assert (k ∈ data_vars A) as [a Ha]%ds_get_is_Some.
    { rewrite <- Hkeys. apply elem_of_app. right. apply elem_of_cons. by left. }
    rewrite Hag by (apply elem_of_cons; by left). rewrite Ha. simpl.
    destruct (Hstep k a Ha) as (b & r & Hb & Hr & Hf).
    rewrite Hb. simpl. rewrite Hr. simpl. by rewrite Hf.
  - exists r. split; [done|].
    destruct (for_keys_grid s (fill_nodata_key B)
                (λ out k out', fill_nodata_key_grid s B out k out' HB)
                _ _ _ HA Hrun) as [Hgrid _].
    split; [done|]. split; [done|].
    intros key p. unfold pixel.
    destruct (decide (key ∈ data_vars A)) as [Hk|Hk].
    + rewrite (Hin key Hk). simpl.
      destruct (ds_get_is_Some A key Hk) as [a Ha].
      destruct (Hstep key a Ha) as (b & r' & Hb & Hr & ->).
      rewrite Ha, Hb. simpl.
      apply masked_assign_values in Hr as [_ Hr]. rewrite Hr. simpl.
      rewrite list_lookup_fmap.
      destruct (values a !! p), (values b !! p); done.
    + rewrite (Hout key Hk), (ds_get_None A key Hk). done.
Qed.

Lemma value_eqb_nodata v : value_eqb v nodata = bool_decide (v = nodata).
Proof.
  unfold nodata. destruct v as [z|]; cbn [value_eqb].
  - destruct (Z.eqb_spec z (-9999)); case_bool_decide; by simplify_eq.
  - by case_bool_decide.
Qed.

Lemma fill_values_first_valid vs :
  ∀ v, foldl (λ acc x, if value_eqb acc nodata then x else acc) v vs
       = first_valid (v :: vs).
Proof.
  unfold first_valid.
  induction vs as [|x vs IH]; intros v; cbn [foldl].
  - destruct (decide (v = nodata)) as [->|Hne].
    + by rewrite filter_cons_False by (by intros []).
    + by rewrite filter_cons_True.
  - rewrite IH, value_eqb_nodata.
    destruct (decide (v = nodata)) as [->|Hne].
    + rewrite bool_decide_eq_true_2 by done.
      by rewrite (filter_cons_False _ nodata) by (by intros []).
    + rewrite bool_decide_eq_false_2 by done.
      by rewrite !(filter_cons_True _ v) by done.
Qed.

Lemma aligned_pixel s keys d ds key p :
  aligned s keys (d :: ds) → key ∈ keys → (p < s.1 * s.2)%nat →
  ∃ v, pixel d key p = Some v ∧ values_at (d :: ds) key p = v :: values_at ds key p.
Proof.
  intros Hal Hk Hp. apply Forall_cons in Hal as [[Hd Hv] _].
  destruct (on_grid_pixel_Some s d key p) as [v Hpx]; try done.
  { by rewrite Hv. }
  exists v. split; [done|]. unfold values_at. simpl. by rewrite Hpx.
Qed.

(** Folding further datasets into an intermediate with [fill_nodata]. *)
Lemma fill_nodata_fold s :
  ∀ ds inter,
    on_grid s inter → aligned s (data_vars inter) ds →
    ∃ r, fold_from fill_nodata (Some inter) ds = Some (Some r)
         ∧ on_grid s r ∧ data_vars r = data_vars inter
         ∧ ∀ key p v,
             pixel inter key p = Some v →
             pixel r key p
             = Some (foldl (λ acc x, if value_eqb acc nodata then x else acc) v
                       (values_at ds key p)).
Proof.
  induction ds as [|d ds IH]; intros inter Hinter Hal.
  - exists inter. split; [done|]. split; [done|]. split; [done|].
    by intros key p v ->.
  - pose proof Hal as Hal'. apply Forall_cons in Hal' as [[Hd Hv] Hrest].
    destruct (fill_nodata_pixels s inter d) as (r1 & Hrun1 & Hg1 & Hv1 & Hpx1);
      try done.
    destruct (IH r1) as (r & Hrun & Hg & Hvr & Hpx); [done|by rewrite Hv1|].
    exists r. split; [cbn [fold_from]; by rewrite Hrun1|].
    split; [done|]. split; [congruence|].
    intros key p v Hpix.
    destruct (aligned_pixel s (data_vars inter) d ds key p) as (b & Hb & Hvals);
      [done|exact (pixel_elem_of _ _ _ _ Hpix)
      |exact (on_grid_pixel_lt _ _ _ _ _ Hinter Hpix)|].
    rewrite Hvals. simpl. apply Hpx. by rewrite Hpx1, Hpix, Hb.
Qed.

(** X1: first valid value wins.  Folding a non-empty sequence of datasets
    of one grid with [fill_nodata], from no intermediate, gives at every band
    and pixel the value of the first dataset of the sequence that is not
    nodata there, and nodata when there is none. *)
Theorem fill_nodata_first_valid s keys d ds :
  aligned s keys (d :: ds) →
  ∃ r, fold_from fill_nodata None (d :: ds) = Some (Some r)
       ∧ on_grid s r ∧ data_vars r = keys
       ∧ ∀ key p, key ∈ keys → (p < s.1 * s.2)%nat →
           pixel r key p = Some (first_valid (values_at (d :: ds) key p)).
Proof.
  intros Hal. pose proof Hal as Hal'.
  apply Forall_cons in Hal' as [[Hd Hv] Hrest].
  destruct (fill_nodata_fold s ds d) as (r & Hrun & Hg & Hvr & Hpx);
    [done|by rewrite Hv|].
  exists r. split; [done|]. split; [done|]. split; [congruence|].
  intros key p Hk Hp.
  destruct (aligned_pixel s keys d ds key p) as (v & Hpix & ->); try done.
  rewrite (Hpx key p v Hpix). by rewrite fill_values_first_valid.
Qed.

Lemma fill_nodata_first_valid_witness :
  aligned (1, 3)%nat ["red"%string] three_dates
  ∧ ∃ r, fold_from fill_nodata None three_dates = Some (Some r)
         ∧ pixel r "red" 0 = Some (Num 7) ∧ pixel r "red" 1 = Some (Num 5)
         ∧ pixel r "red" 2 = Some (Num (-9999)).
Proof.
  assert (H : aligned (1, 3)%nat ["red"%string] three_dates)
    by (apply (bool_decide_unpack _); vm_compute; exact I).
  split; [exact H|].
  destruct (fill_nodata_first_valid _ _ _ _ H) as (r & Hrun & _ & _ & Hpx).
  exists r. split; [exact Hrun|].
  assert (Hk : "red"%string ∈ ["red"%string]) by apply list_elem_of_here.
  split; [|split].
  - exact (Hpx "red"%string 0%nat Hk (Nat.lt_0_succ 2)).
  - refine (Hpx "red"%string 1%nat Hk _). simpl. lia.
  - refine (Hpx "red"%string 2%nat Hk _). simpl. lia.
Defined.

(** A loop whose body writes no key but its own fails as soon as one of its
    keys makes the body fail on the initial value of that key. *)
Lemma for_keys_fails body (init : Dataset) :
  (∀ out k out', body out k = Some out' →
                 ∀ k', k' ≠ k → ds_get out' k' = ds_get out k') →
  ∀ keys out k,
    NoDup keys → k ∈ keys →
    (∀ k', k' ∈ keys → ds_get out k' = ds_get init k') →
    (∀ out', ds_get out' k = ds_get init k → body out' k = None) →
    for_keys body out keys = None.
Proof.
  intros Hown. induction keys as [|k0 keys IH]; intros out k Hnd Hk Hag Hfail.
  - by apply elem_of_nil in Hk.
  - apply NoDup_cons in Hnd as [Hk0 Hnd]. simpl.
    destruct (body out k0) as [out1|] eqn:Hstep; [|done]. simpl.
    apply elem_of_cons in Hk as [->|Hk].
    + rewrite Hfail in Hstep; [done|]. apply Hag, elem_of_cons. by left.
    + apply (IH out1 k); try done.
      intros k' Hk'. rewrite (Hown _ _ _ Hstep) by (intros ->; done).
      apply Hag, elem_of_cons. by right.
Qed.

Lemma fill_nodata_key_own dataset out k out' :
  fill_nodata_key dataset out k = Some out' →
  ∀ k', k' ≠ k → ds_get out' k' = ds_get out k'.
Proof.
  unfold fill_nodata_key. intros Hrun k' Hne.
  destruct (ds_get out k); [|done]. simpl in Hrun.
  destruct (ds_get dataset k); [|done]. simpl in Hrun.
  destruct (np_masked_assign _ _ _); [|done]. simplify_eq/=.
  by apply ds_get_set_ne.
Qed.

Lemma fill_nodata_runs dataset inter :
  NoDup (data_vars inter) → covers dataset inter →
  is_Some (fill_nodata dataset (Some inter)).
Proof.
  intros Hnd Hcov. simpl.
  set (f := λ k : string,
         default (NdArray (0, 0)%nat [])
           (out_k ← ds_get inter k; new_k ← ds_get dataset k;
            np_masked_assign (np_eq_scalar out_k nodata) out_k new_k)).
  destruct (for_keys_replace (fill_nodata_key dataset) f inter
              (data_vars inter) inter) as (out & Hrun & _); [done| |done| |eauto].
  - apply ds_get_is_Some.
  - intros pre k post out' Hkeys Hag. unfold fill_nodata_key.
    assert (k ∈ data_vars inter) as [a Ha]%ds_get_is_Some.
    { rewrite <- Hkeys. apply elem_of_app. right. apply elem_of_cons. by left. }
    rewrite Hag by (apply elem_of_cons; by left). rewrite Ha. simpl.
    destruct (covers_get _ _ _ _ Hcov Ha) as (b & Hb & Hs).
    rewrite Hb. simpl. unfold f. rewrite Ha. simpl. rewrite Hb. simpl.
    unfold np_masked_assign. rewrite decide_True; [done|]. simpl. by rewrite Hs.
Qed.

(** X2: when [fill_nodata] raises.  On an intermediate the call succeeds
    exactly when every band of the intermediate is a band of the new dataset
    with the same shape; a missing band ([KeyError]) or a band of another
    shape ([IndexError] of the boolean index) makes it fail. *)
Theorem fill_nodata_defined dataset inter :
  NoDup (data_vars inter) →
  is_Some (fill_nodata dataset (Some inter)) ↔ covers dataset inter.
Proof.
  intros Hnd. split; [|by apply fill_nodata_runs].
  intros [r Hrun]. destruct (decide (covers dataset inter)) as [|Hnc]; [done|].
  exfalso. apply (not_Forall_Exists _), Exists_exists in Hnc
    as ([k a] & Hin & Hbad). simpl in Hbad.
  pose proof (elem_of_ds_get _ _ _ Hnd Hin) as Ha.
  simpl in Hrun.
  rewrite (for_keys_fails (fill_nodata_key dataset) inter
             (fill_nodata_key_own dataset) (data_vars inter) inter k) in Hrun;
    try done.
  - by eapply ds_get_elem_of.
  - intros out' Hout. unfold fill_nodata_key. rewrite Hout, Ha. simpl.
    destruct (ds_get dataset k) as [b|]; [|done]. simpl.
    unfold np_masked_assign. rewrite decide_False; [done|].
    simpl. intros [Hs _]. apply Hbad. simpl. by rewrite Hs.
Qed.

Lemma fill_nodata_defined_witness :
  NoDup (data_vars CombineExamples.holes)
  ∧ (is_Some (fill_nodata CombineExamples.tieA (Some CombineExamples.holes))
     ↔ covers CombineExamples.tieA CombineExamples.holes)
  ∧ fill_nodata CombineExamples.tieA (Some CombineExamples.holes) = None.
Proof.
  assert (H : NoDup (data_vars CombineExamples.holes))
    by (apply (bool_decide_unpack _); vm_compute; exact I).
  split; [exact H|]. split; [exact (fill_nodata_defined _ _ H)|reflexivity].
Defined.

(** ** The criterion methods on a grid *)

Lemma grid_pixel_defined s D key p :
  on_grid s D → (p < s.1 * s.2)%nat →
  is_Some (pixel D key p) ↔ key ∈ data_vars D.
Proof.
  intros HD Hp. split.
  - intros [v Hv]. by eapply pixel_elem_of.
  - intros Hk. by eapply on_grid_pixel_Some.
Qed.

Lemma grid_pixel_out_of_range s D key p :
  on_grid s D → ¬ (p < s.1 * s.2)%nat → pixel D key p = None.
Proof.
  intros HD Hp. destruct (pixel D key p) as [v|] eqn:Hv; [|done].
  destruct Hp. by eapply on_grid_pixel_lt.
Qed.

(** One criterion call with the criterion band last: the grid is kept, every
    pixel takes all its bands from one of the two datasets, and the
    criterion band is [pick] of the two criteria. *)
Lemma criterion_call cmp (pick : value → value → value) s (A B : Dataset) :
  (∀ x y, (if cmp y x : bool then y else x) = pick x y) →
  on_grid s A → on_grid s B → data_vars A = data_vars B →
  last (data_vars A) = Some "ndvi"%string →
  ∃ r, for_keys (criterion_key cmp B) A (data_vars A) = Some r
       ∧ on_grid s r ∧ data_vars r = data_vars A
       ∧ ∀ p,
           ((∀ key, pixel r key p = pixel A key p)
            ∨ (∀ key, pixel r key p = pixel B key p))
           ∧ pixel r "ndvi" p
             = (na ← pixel A "ndvi" p; nb ← pixel B "ndvi" p; Some (pick na nb)).
Proof.
  intros Hpick HA HB Hvars Hlast.
  destruct (criterion_fold cmp s A B) as (r & Hrun & Hpx); try done.
  destruct (for_keys_grid s (criterion_key cmp B)
              (λ out k out', criterion_key_grid cmp s B out k out' HB)
              _ _ _ HA Hrun) as [Hgrid Hdv].
  exists r. split; [done|]. split; [done|]. split; [done|].
  assert ("ndvi"%string ∈ data_vars A) as HnA by by apply last_Some_elem_of.
  assert ("ndvi"%string ∈ data_vars B) as HnB by by rewrite <- Hvars.
  intros p. destruct (decide (p < s.1 * s.2)%nat) as [Hp|Hp].
  - destruct (on_grid_pixel_Some s A "ndvi" p) as [na Hna]; try done.
    destruct (on_grid_pixel_Some s B "ndvi" p) as [nb Hnb]; try done.
    split.
    + assert (Hkey : ∀ key,
                (∃ a b, pixel A key p = Some a ∧ pixel B key p = Some b)
                ∨ (pixel A key p = None ∧ pixel B key p = None)).
      { intros key. destruct (decide (key ∈ data_vars A)) as [Hk|Hk].
        - left.
          destruct (on_grid_pixel_Some s A key p) as [a Ha]; try done.
          destruct (on_grid_pixel_Some s B key p) as [b Hb]; try done.
          { by rewrite <- Hvars. }
          eauto.
        - right. split.
          + destruct (pixel A key p) eqn:E; [|done].
            destruct Hk. by eapply pixel_elem_of.
          + destruct (pixel B key p) eqn:E; [|done].
            destruct Hk. rewrite Hvars. by eapply pixel_elem_of. }
      destruct (cmp nb na) eqn:Hc.
      * right. intros key. rewrite Hpx, Hna, Hnb. simpl. rewrite Hc.
        destruct (Hkey key) as [(a & b & -> & ->)|[-> ->]]; done.
      * left. intros key. rewrite Hpx, Hna, Hnb. simpl. rewrite Hc.
        destruct (Hkey key) as [(a & b & -> & ->)|[-> ->]]; done.
    + rewrite Hpx, Hna, Hnb. simpl. by rewrite Hpick.
  - split.
    + left. intros key. rewrite Hpx.
      by rewrite (grid_pixel_out_of_range s A key p).
    + rewrite Hpx. by rewrite (grid_pixel_out_of_range s A "ndvi" p).
Qed.

Lemma picked_max x y :
  (if value_gtb y x then y else x) = picked Z.max x y.
Proof.
  destruct x as [a|], y as [b|]; simpl; try done.
  destruct (Z.gtb_spec b a); f_equal; lia.
Qed.

Lemma picked_min x y :
  (if value_ltb y x then y else x) = picked Z.min x y.
Proof.
  destruct x as [a|], y as [b|]; simpl; try done.
  destruct (Z.ltb_spec b a); f_equal; lia.
Qed.

(** X3: a pixel has one source.  With the criterion band last,
    [max_value] (resp. [min_value]) keeps the grid, and at every pixel all
    the bands of the result come from the same one of the two datasets: the
    new [ndvi] is the larger (smaller) of the two where both are numbers,
    and the one of the intermediate where one of them is NaN. *)
Theorem criterion_single_source s (A B : Dataset) :
  on_grid s A → on_grid s B → data_vars A = data_vars B →
  last (data_vars A) = Some "ndvi"%string →
  (∃ r, max_value B (Some A) = Some r
        ∧ on_grid s r ∧ data_vars r = data_vars A
        ∧ ∀ p,
            ((∀ key, pixel r key p = pixel A key p)
             ∨ (∀ key, pixel r key p = pixel B key p))
            ∧ pixel r "ndvi" p
              = (na ← pixel A "ndvi" p; nb ← pixel B "ndvi" p;
                 Some (picked Z.max na nb)))
  ∧ (∃ r, min_value B (Some A) = Some r
          ∧ on_grid s r ∧ data_vars r = data_vars A
          ∧ ∀ p,
              ((∀ key, pixel r key p = pixel A key p)
               ∨ (∀ key, pixel r key p = pixel B key p))
              ∧ pixel r "ndvi" p
                = (na ← pixel A "ndvi" p; nb ← pixel B "ndvi" p;
                   Some (picked Z.min na nb))).
Proof.
  intros HA HB Hvars Hlast. split.
  - apply (criterion_call value_gtb (picked Z.max) s A B); try done.
    apply picked_max.
  - apply (criterion_call value_ltb (picked Z.min) s A B); try done.
    apply picked_min.
Qed.

Lemma criterion_single_source_witness :
  let A := CombineExamples.tieA in
  let B := [("red"%string, CombineExamples.one_pixel 20);
            ("ndvi"%string, CombineExamples.one_pixel 4)] in
  ∃ r, max_value B (Some A) = Some r
       ∧ pixel r "ndvi" 0 = Some (Num 4)
       ∧ ((∀ key, pixel r key 0 = pixel A key 0)
          ∨ (∀ key, pixel r key 0 = pixel B key 0)).
Proof.
  intros A B.
  assert (HA : on_grid (1, 1)%nat A)
    by (apply (bool_decide_unpack _); vm_compute; exact I).
  assert (HB : on_grid (1, 1)%nat B)
    by (apply (bool_decide_unpack _); vm_compute; exact I).
  destruct (proj1 (criterion_single_source _ A B HA HB eq_refl eq_refl))
    as (r & Hrun & _ & _ & Hp).
  exists r. split; [exact Hrun|].
  split; [exact (proj2 (Hp 0%nat))|exact (proj1 (Hp 0%nat))].
Defined.

(** X4: no criterion band.  On an intermediate with at least one band,
    [max_value] and [min_value] raise when either dataset has no [ndvi]
    band: the mask is read from both. *)
Theorem criterion_needs_ndvi dataset inter :
  data_vars inter ≠ [] →
  ds_get dataset "ndvi" = None ∨ ds_get inter "ndvi" = None →
  max_value dataset (Some inter) = None ∧ min_value dataset (Some inter) = None.
Proof.
  intros Hne Hmissing. destruct inter as [|[k a] rest]; [done|].
  assert (∀ cmp, criterion_key cmp dataset ((k, a) :: rest) k = None) as Hkey.
  { intros cmp. unfold criterion_key.
    destruct Hmissing as [Hd|Hi]; [rewrite Hd|rewrite Hi].
    - by destruct (ds_get dataset k).
    - destruct (ds_get dataset k); [|done].
      by destruct (ds_get dataset "ndvi"). }
  split; simpl; by rewrite Hkey.
Qed.

Lemma criterion_needs_ndvi_witness :
  max_value CombineExamples.fresh (Some CombineExamples.holes) = None
  ∧ min_value CombineExamples.fresh (Some CombineExamples.holes) = None.
Proof.
  apply criterion_needs_ndvi; [discriminate|by left].
Defined.

(** ** Folding a sequence with a criterion method *)

Lemma criterion_fold_list cmp (pick : value → value → value) method s :
  (∀ x y, (if cmp y x : bool then y else x) = pick x y) →
  (∀ d i, method d (Some i) = for_keys (criterion_key cmp d) i (data_vars i)) →
  ∀ ds inter,
    on_grid s inter → aligned s (data_vars inter) ds →
    last (data_vars inter) = Some "ndvi"%string →
    ∃ r, fold_from method (Some inter) ds = Some (Some r)
         ∧ on_grid s r ∧ data_vars r = data_vars inter
         ∧ ∀ p v, pixel inter "ndvi" p = Some v →
                  pixel r "ndvi" p
                  = Some (foldl pick v (values_at ds "ndvi" p)).
Proof.
  intros Hpick Hmethod.
  induction ds as [|d ds IH]; intros inter Hinter Hal Hlast.
  - exists inter. split; [done|]. split; [done|]. split; [done|].
    by intros p v ->.
  - pose proof Hal as Hal'. apply Forall_cons in Hal' as [[Hd Hv] Hrest].
    destruct (criterion_call cmp pick s inter d) as (r1 & Hrun1 & Hg1 & Hv1 & Hpx1);
      try done.
    destruct (IH r1) as (r & Hrun & Hg & Hvr & Hpx);
      [done|by rewrite Hv1|by rewrite Hv1|].
    exists r. split; [cbn [fold_from]; by rewrite Hmethod, Hrun1|].
    split; [done|]. split; [congruence|].
    intros p v Hpix.
    destruct (aligned_pixel s (data_vars inter) d ds "ndvi" p)
      as (b & Hb & Hvals);
      [done|exact (pixel_elem_of _ _ _ _ Hpix)
      |exact (on_grid_pixel_lt _ _ _ _ _ Hinter Hpix)|].
    rewrite Hvals. simpl. apply Hpx.
    destruct (Hpx1 p) as [_ ->]. by rewrite Hpix, Hb.
Qed.

Lemma foldl_max_spec l :
  ∀ v, foldl Z.max v l ∈ v :: l ∧ ∀ x, x ∈ v :: l → x ≤ foldl Z.max v l.
Proof.
  induction l as [|y l IH]; intros v; simpl.
  - split; [apply list_elem_of_here|]. by intros x ->%list_elem_of_singleton.
  - destruct (IH (Z.max v y)) as [Hin Hle]. split.
    + apply elem_of_cons in Hin as [Hm|Hin].
      * rewrite Hm. destruct (Z.max_spec v y) as [[_ ->]|[_ ->]].
        -- apply list_elem_of_further, list_elem_of_here.
        -- apply list_elem_of_here.
      * by do 2 apply list_elem_of_further.
    + intros x Hx.
      assert (Z.max v y ≤ foldl Z.max (Z.max v y) l)
        by (apply Hle, list_elem_of_here).
      apply elem_of_cons in Hx as [->|Hx]; [lia|].
      apply elem_of_cons in Hx as [->|Hx]; [lia|].
      by apply Hle, list_elem_of_further.
Qed.

Lemma foldl_min_spec l :
  ∀ v, foldl Z.min v l ∈ v :: l ∧ ∀ x, x ∈ v :: l → foldl Z.min v l ≤ x.
Proof.
  induction l as [|y l IH]; intros v; simpl.
  - split; [apply list_elem_of_here|]. by intros x ->%list_elem_of_singleton.
  - destruct (IH (Z.min v y)) as [Hin Hle]. split.
    + apply elem_of_cons in Hin as [Hm|Hin].
      * rewrite Hm. destruct (Z.min_spec v y) as [[_ ->]|[_ ->]].
        -- apply list_elem_of_here.
        -- apply list_elem_of_further, list_elem_of_here.
      * by do 2 apply list_elem_of_further.
    + intros x Hx.
      assert (foldl Z.min (Z.min v y) l ≤ Z.min v y)
        by (apply Hle, list_elem_of_here).
      apply elem_of_cons in Hx as [->|Hx]; [lia|].
      apply elem_of_cons in Hx as [->|Hx]; [lia|].
      by apply Hle, list_elem_of_further.
Qed.

(** A list of values without NaN is a list of numbers, and a criterion fold
    over it is the fold over the numbers. *)
Lemma numbers_only (vs : list value) : NaN ∉ vs → ∃ zs, vs = Num <$> zs.
Proof.
  induction vs as [|v vs IH]; intros Hnan; [by exists []|].
  apply not_elem_of_cons in Hnan as [Hv Hvs].
  destruct (IH Hvs) as [zs ->]. destruct v as [z|]; [|done].
  by exists (z :: zs).
Qed.

Lemma foldl_picked pick (zs : list Z) :
  ∀ z, foldl (picked pick) (Num z) (Num <$> zs) = Num (foldl pick z zs).
Proof. induction zs as [|y zs IH]; intros z; [done|]. cbn. apply IH. Qed.

Lemma elem_of_numbers x (zs : list Z) : Num x ∈ Num <$> zs → x ∈ zs.
Proof.
  intros (y & Heq & Hy)%list_elem_of_fmap. by simplify_eq.
Qed.

(** The criterion of a fold at a pixel where the sequence holds no NaN. *)
Lemma extremum_of_numbers pick (R : Z → Z → Prop) v vs :
  (∀ l z, foldl pick z l ∈ z :: l ∧ ∀ x, x ∈ z :: l → R x (foldl pick z l)) →
  NaN ∉ v :: vs →
  ∃ m, foldl (picked pick) v vs = Num m
       ∧ Num m ∈ v :: vs
       ∧ ∀ x, Num x ∈ v :: vs → R x m.
Proof.
  intros Hspec Hnan.
  destruct (numbers_only _ Hnan) as [[|z zs] Heq]; [done|].
  cbn in Heq. injection Heq as -> ->.
  destruct (Hspec zs z) as [Hin Hle].
  exists (foldl pick z zs). split; [apply foldl_picked|]. split.
  - change (Num z :: (Num <$> zs)) with (Num <$> (z :: zs)).
    by apply list_elem_of_fmap_2.
  - intros x Hx. apply Hle.
    change (Num z :: (Num <$> zs)) with (Num <$> (z :: zs)) in Hx.
    by apply elem_of_numbers.
Qed.

(** X5: the criterion band of a fold.  Folding a non-empty sequence of
    datasets of one grid, criterion band last, with [max_value] (resp.
    [min_value]) from no intermediate gives, at every pixel where no [ndvi]
    value of the sequence is NaN, the largest (smallest) of the [ndvi]
    values of the sequence there: at these pixels the band does not depend
    on the order of the sequence. *)
Theorem criterion_fold_extremum s keys d ds :
  aligned s keys (d :: ds) → last keys = Some "ndvi"%string →
  (∃ r, fold_from max_value None (d :: ds) = Some (Some r)
        ∧ ∀ p, (p < s.1 * s.2)%nat →
            NaN ∉ values_at (d :: ds) "ndvi" p →
            ∃ m, pixel r "ndvi" p = Some (Num m)
                 ∧ Num m ∈ values_at (d :: ds) "ndvi" p
                 ∧ ∀ x, Num x ∈ values_at (d :: ds) "ndvi" p → x ≤ m)
  ∧ (∃ r, fold_from min_value None (d :: ds) = Some (Some r)
          ∧ ∀ p, (p < s.1 * s.2)%nat →
              NaN ∉ values_at (d :: ds) "ndvi" p →
              ∃ m, pixel r "ndvi" p = Some (Num m)
                   ∧ Num m ∈ values_at (d :: ds) "ndvi" p
                   ∧ ∀ x, Num x ∈ values_at (d :: ds) "ndvi" p → m ≤ x).
Proof.
  intros Hal Hlast. pose proof Hal as Hal'.
  apply Forall_cons in Hal' as [[Hd Hv] Hrest].
  assert (Hk : "ndvi"%string ∈ keys) by by apply last_Some_elem_of.
  assert (Hal2 : aligned s (data_vars d) ds) by by rewrite Hv.
  assert (Hlast2 : last (data_vars d) = Some "ndvi"%string) by by rewrite Hv.
  split.
  - destruct (criterion_fold_list value_gtb (picked Z.max) max_value s
                picked_max (λ _ _, eq_refl) ds d Hd Hal2 Hlast2)
      as (r & Hrun & _ & _ & Hpx).
    exists r. split; [done|]. intros p Hp Hnan.
    destruct (aligned_pixel s keys d ds "ndvi" p) as (v & Hpix & Hvals); try done.
    rewrite Hvals in Hnan |- *.
    destruct (extremum_of_numbers Z.max (λ x m, x ≤ m) v
                (values_at ds "ndvi" p) foldl_max_spec Hnan)
      as (m & Hm & Hin & Hle).
    exists m. split; [|done]. by rewrite (Hpx p v Hpix), Hm.
  - destruct (criterion_fold_list value_ltb (picked Z.min) min_value s
                picked_min (λ _ _, eq_refl) ds d Hd Hal2 Hlast2)
      as (r & Hrun & _ & _ & Hpx).
    exists r. split; [done|]. intros p Hp Hnan.
    destruct (aligned_pixel s keys d ds "ndvi" p) as (v & Hpix & Hvals); try done.
    rewrite Hvals in Hnan |- *.
    destruct (extremum_of_numbers Z.min (λ x m, m ≤ x) v
                (values_at ds "ndvi" p) foldl_min_spec Hnan)
      as (m & Hm & Hin & Hle).
    exists m. split; [|done]. by rewrite (Hpx p v Hpix), Hm.
Qed.

Lemma criterion_fold_extremum_witness :
  (aligned (1, 2)%nat ["red"%string; "ndvi"%string] ndvi_series
   ∧ last ["red"%string; "ndvi"%string] = Some "ndvi"%string
   ∧ NaN ∉ values_at ndvi_series "ndvi" 0)
  ∧ ∃ r, fold_from max_value None ndvi_series = Some (Some r)
         ∧ ∃ m, pixel r "ndvi" 0 = Some (Num m)
                ∧ ∀ x, Num x ∈ [Num 3; Num 5; Num 4] → x ≤ m.
Proof.
  assert (H : aligned (1, 2)%nat ["red"%string; "ndvi"%string] ndvi_series)
    by (apply (bool_decide_unpack _); vm_compute; exact I).
  assert (Hnan : NaN ∉ values_at ndvi_series "ndvi" 0)
    by (apply (bool_decide_unpack _); vm_compute; exact I).
  split; [exact (conj H (conj eq_refl Hnan))|].
  destruct (proj1 (criterion_fold_extremum _ _ _ _ H eq_refl))
    as (r & Hrun & Hp).
  exists r. split; [exact Hrun|].
  destruct (Hp 0%nat) as (m & Hm & _ & Hle); [simpl; lia|exact Hnan|].
  exists m. split; [exact Hm|exact Hle].
Defined.

End CombineFoldFacts.


(** * More facts about the chunk worker *)

Module ChunkMoreFacts.
Import Chunk ChunkFacts.

Lemma py_index_elem_of {A} (l : list A) i x : py_index l i = Some x → x ∈ l.
Proof.
  unfold py_index. repeat case_decide; try done; apply list_elem_of_lookup_2.
Qed.

Lemma py_index_in_range {A} (l : list A) i :
  0 ≤ i < len l → is_Some (py_index l i).
Proof.
  unfold py_index, len. intros Hi. rewrite decide_True by lia.
  apply lookup_lt_is_Some. lia.
Qed.

Lemma py_index_last {A} (l : list A) : 0 < len l → is_Some (py_index l (-1)).
Proof.
  unfold py_index, len. intros Hl. rewrite decide_False by lia.
  rewrite decide_True by lia. apply lookup_lt_is_Some. lia.
Qed.

(** Every algorithm of the table moves the cursor forward. *)
Lemma configured_stride name options :
  Options.processing_algorithms name = Some options → 0 < stride options.
Proof.
  unfold Options.processing_algorithms. repeat case_decide; intros [= <-]; done.
Qed.

Section worker.

Context {RawData Mosaic : Type}.
Variable status_at : nat → option string.
Variable get_dataset_by_extent : Z * Z → RawData.
Variable clear_mask_of : RawData → option (list (list bool)).
Variable drop_cf_mask : RawData → RawData.
Variable run_processing_method :
  Options.processing_method_ref → RawData → list (list bool) → option Mosaic → Mosaic.
Variable processing_options : Options.processing_options.
Variable query_id : string.
Variable acquisition_list : list Z.

Abbreviation step := (chunk_step status_at get_dataset_by_extent clear_mask_of
                    drop_cf_mask run_processing_method processing_options
                    acquisition_list).
Abbreviation loop := (chunk_loop status_at get_dataset_by_extent clear_mask_of
                    drop_cf_mask run_processing_method processing_options
                    acquisition_list).
Abbreviation iter := (chunk_iter status_at get_dataset_by_extent clear_mask_of
                    drop_cf_mask run_processing_method processing_options
                    acquisition_list).
Abbreviation task := (generate_TOOL_chunk status_at get_dataset_by_extent
                    clear_mask_of drop_cf_mask run_processing_method
                    processing_options query_id acquisition_list).

(** X6: the ledger row is gone.  When the row of the query cannot be
    read at the start of a pass the loop reaches, the task returns a bare
    [None] and leaves the scratch files as they were. *)
Theorem missing_row_returns_none k st fuel time_num chunk_num files :
  iter k initial = Some st →
  time_index st < len acquisition_list →
  status_at (polls st) = None →
  (k < fuel)%nat →
  task fuel time_num chunk_num files = Some (Returned RetNone, files).
Proof.
  intros Hk Hlt Hc Hfuel. unfold generate_TOOL_chunk.
  replace fuel with (k + S (fuel - S k))%nat by lia.
  rewrite (chunk_iter_loop _ _ _ _ _ _ _ k _ st) by done. simpl.
  rewrite decide_True by done. unfold chunk_step. by rewrite Hc.
Qed.

(** ** The dates of the metadata *)

Definition dated (md : acquisition_map) : Prop :=
  ∀ d, is_Some (md !! d) → d ∈ acquisition_list.

Lemma tally_slices_dated ti :
  ∀ slices k md obs md' obs',
    tally_slices acquisition_list ti k slices md obs = Some (md', obs') →
    dated md → dated md'.
Proof.
  induction slices as [|slice slices IH]; intros k md obs md' obs' Hrun Hinv.
  - by simplify_eq/=.
  - simpl in Hrun.
    destruct (py_index acquisition_list (ti + Z.of_nat k)) as [t|] eqn:Ht;
      [|done].
    simpl in Hrun. eapply IH; [exact Hrun|].
    intros d. rewrite add_clean_pixels_lookup.
    case_decide as Hd; [|apply Hinv].
    intros _. subst. by eapply py_index_elem_of.
Qed.

Lemma chunk_step_dated st st' :
  step st = Continue st' →
  dated (acquisition_metadata st) → dated (acquisition_metadata st').
Proof.
  unfold chunk_step. intros H.
  destruct (status_at (polls st)) as [status|]; [|done].
  case_decide; [done|].
  destruct (time_range _ _ _) as [window|]; [|done].
  destruct (clear_mask_of _) as [mask|].
  - destruct (tally_slices _ _ _ _ _ _) as [[md obs]|] eqn:Ht; [|done].
    simplify_eq/=. by eapply tally_slices_dated.
  - by simplify_eq/=.
Qed.

Lemma chunk_loop_dated fuel :
  ∀ st st', loop fuel st = Some (Exited st') →
            dated (acquisition_metadata st) → dated (acquisition_metadata st').
Proof.
  induction fuel as [|fuel IH]; intros st st' Hrun Hinv; simpl in Hrun.
  - case_decide; by simplify_eq.
  - case_decide; [|by simplify_eq].
    destruct (step st) as [st1| |] eqn:Hs; [|done..].
    apply chunk_step_dated in Hs; eauto.
Qed.

(** X7: only dates of the list.  Every date of the metadata a chunk
    returns is one of the acquisition dates it was given. *)
Theorem chunk_metadata_dates fuel time_num chunk_num files path md files' d :
  generate_TOOL_chunk status_at get_dataset_by_extent clear_mask_of
    drop_cf_mask run_processing_method processing_options query_id
    acquisition_list fuel time_num chunk_num files
  = Some (Returned (RetPair (Some path) (Some md)), files') →
  is_Some (md !! d) → d ∈ acquisition_list.
Proof.
  intros Hrun Hd.
  destruct (chunk_metadata_total _ _ _ _ _ _ _ _ _ _ _ _ _ _ _ Hrun)
    as (st & Hloop & -> & _).
  refine (chunk_loop_dated _ _ _ Hloop _ d Hd).
  intros d' [x Hx]. simpl in Hx. by rewrite lookup_empty in Hx.
Qed.

(** ** The number of passes *)

Lemma chunk_step_fetched st st' :
  step st = Continue st' → length (fetched st') = S (length (fetched st)).
Proof.
  unfold chunk_step. intros H.
  destruct (status_at (polls st)) as [status|]; [|done].
  case_decide; [done|].
  destruct (time_range _ _ _) as [window|]; [|done].
  destruct (clear_mask_of _) as [mask|].
  - destruct (tally_slices _ _ _ _ _ _) as [[md obs]|] eqn:Ht; [|done].
    by simplify_eq/=.
  - by simplify_eq/=.
Qed.

Definition paced (st : loop_state (Mosaic := Mosaic)) : Prop :=
  time_index st = Z.of_nat (polls st) * stride processing_options
  ∧ length (fetched st) = polls st
  ∧ (polls st = 0%nat
     ∨ (Z.of_nat (polls st) - 1) * stride processing_options
       < len acquisition_list).

Lemma chunk_loop_paced fuel :
  ∀ st st', loop fuel st = Some (Exited st') → paced st →
            paced st' ∧ len acquisition_list ≤ time_index st'.
Proof.
  induction fuel as [|fuel IH]; intros st st' Hrun Hinv; simpl in Hrun.
  - case_decide; simplify_eq. split; [done|lia].
  - case_decide; [|simplify_eq; split; [done|lia]].
    destruct (step st) as [st1| |] eqn:Hs; [|done..].
    apply (IH st1); [done|].
    pose proof (chunk_step_fetched _ _ Hs) as Hf.
    apply chunk_step_continue in Hs as (Hti & Hp & _).
    destruct Hinv as (Hi1 & Hi2 & Hi3).
    split; [rewrite Hti, Hp, Hi1; lia|]. split; [congruence|].
    right. rewrite Hp. replace (Z.of_nat (S (polls st)) - 1) with
      (Z.of_nat (polls st)) by lia. by rewrite <- Hi1.
Qed.

(** X8: the number of passes.  With a positive stride [n], a run that
    leaves the loop normally has made exactly [ceil(len / n)] passes, one
    fetch and one cancellation check each. *)
Theorem chunk_passes fuel st :
  0 < stride processing_options →
  loop fuel initial = Some (Exited st) →
  Z.of_nat (length (fetched st))
  = (len acquisition_list + stride processing_options - 1)
      `div` stride processing_options
  ∧ polls st = length (fetched st).
Proof.
  intros Hpos Hrun.
  destruct (chunk_loop_paced _ _ _ Hrun) as ((Hi1 & Hi2 & Hi3) & Hexit).
  { split; [simpl; lia|]. split; [done|by left]. }
  split; [|done]. rewrite Hi2.
  set (n := stride processing_options) in *.
  set (k := Z.of_nat (polls st)) in *.
  assert (0 ≤ len acquisition_list) by (unfold len; lia).
  apply (Z.div_unique _ _ _ (len acquisition_list + n - 1 - n * k)).
  - left. destruct Hi3 as [Hz|Hlt].
    + assert (k = 0) by (unfold k; lia). nia.
    + nia.
  - lia.
Qed.

(** ** Fetches without the quality band *)

Lemma time_range_defined ti :
  0 < stride processing_options →
  0 ≤ ti < len acquisition_list →
  is_Some (time_range processing_options acquisition_list ti).
Proof.
  intros Hpos Hti. unfold time_range, stride in *.
  destruct (py_index_in_range acquisition_list ti Hti) as [first ->]. simpl.
  destruct (py_index_last acquisition_list) as [last_ Hl]; [lia|].
  destruct (Options.time_slices_per_iteration processing_options) as [n|].
  - case_decide.
    + destruct (py_index_in_range acquisition_list (ti + n - 1)) as [e ->];
        [lia|]. simpl. eauto.
    + rewrite Hl. simpl. eauto.
  - rewrite Hl. simpl. eauto.
Qed.

Lemma chunk_loop_no_mask fuel :
  0 < stride processing_options →
  (∀ w, clear_mask_of (get_dataset_by_extent w) = None) →
  (∀ n, ∃ status, status_at n = Some status ∧ status ≠ "CANCEL"%string) →
  ∀ st, 0 ≤ time_index st → iteration_data st = None →
        (Z.to_nat (len acquisition_list - time_index st) ≤ fuel)%nat →
        ∃ st', loop fuel st = Some (Exited st') ∧ iteration_data st' = None.
Proof.
  intros Hpos Hmask Hstatus.
  induction fuel as [|fuel IH]; intros st Hti Hdata Hfuel; simpl.
  - case_decide; [lia|eauto].
  - case_decide as Hlt; [|eauto].
    unfold chunk_step. destruct (Hstatus (polls st)) as (status & -> & Hne).
    rewrite decide_False by done.
    destruct (time_range_defined (time_index st) Hpos) as [w ->]; [lia|].
    rewrite Hmask. apply IH; simpl; try done; lia.
Qed.

(** X9: nothing usable.  When no fetch carries the quality band, the
    stride is positive and the query is never cancelled, the task returns
    the empty pair [[None, None]] and writes no scratch file. *)
Theorem no_mask_returns_empty fuel time_num chunk_num files :
  0 < stride processing_options →
  (∀ w, clear_mask_of (get_dataset_by_extent w) = None) →
  (∀ n, ∃ status, status_at n = Some status ∧ status ≠ "CANCEL"%string) →
  (Z.to_nat (len acquisition_list) ≤ fuel)%nat →
  task fuel time_num chunk_num files
  = Some (Returned (RetPair None None), files).
Proof.
  intros Hpos Hmask Hstatus Hfuel. unfold generate_TOOL_chunk.
  destruct (chunk_loop_no_mask fuel Hpos Hmask Hstatus initial)
    as (st & -> & ->); simpl; try done; lia.
Qed.

(** ** The tally of the clean pixels *)

(** The true pixels of a mask slice, counted one by one. *)
Definition true_pixels (slice : list bool) : nat :=
  foldr (λ (b : bool) n, if b then S n else n) 0%nat slice.

(** The time slices of a clear mask fetched at [cursor], from the slice
    numbered [timeslice] on, each with its date
    [acquisition_list[cursor + timeslice]], put before [seen]. *)
Fixpoint date_slices (cursor : Z) (timeslice : nat) (slices : list (list bool))
    (seen : list (Z * list bool)) : list (Z * list bool) :=
  match slices with
  | [] => seen
  | slice :: rest =>
      match py_index acquisition_list (cursor + Z.of_nat timeslice) with
      | Some time => date_slices cursor (S timeslice) rest ((time, slice) :: seen)
      | None => seen
      end
  end.

(** The dated slices of the first [passes] passes, the latest first: pass
    [k] fetches the window at cursor [k * stride]. *)
Fixpoint seen_after (passes : nat) : list (Z * list bool) :=
  match passes with
  | O => []
  | S k =>
      let cursor := Z.of_nat k * stride processing_options in
      match time_range processing_options acquisition_list cursor with
      | Some window =>
          match clear_mask_of (get_dataset_by_extent window) with
          | Some clear_mask => date_slices cursor 0 clear_mask (seen_after k)
          | None => seen_after k
          end
      | None => seen_after k
      end
  end.

Definition slice_counts (seen : list (Z * list bool)) : list (Z * nat) :=
  (λ dated, (dated.1, true_pixels dated.2)) <$> seen.

Lemma np_count_true_pixels slice : np_count_true slice = true_pixels slice.
Proof.
  unfold np_count_true. induction slice as [|b slice IH]; [done|].
  destruct b; cbn [true_pixels foldr].
  - rewrite filter_cons_True by done. simpl. by rewrite IH.
  - by rewrite filter_cons_False by done.
Qed.

Lemma tally_slices_seen cursor :
  ∀ slices k md obs md' obs' seen,
    tally_slices acquisition_list cursor k slices md obs = Some (md', obs') →
    obs = slice_counts seen →
    obs' = slice_counts (date_slices cursor k slices seen).
Proof.
  induction slices as [|slice slices IH];
    intros k md obs md' obs' seen Hrun Hobs; simpl in *.
  - by simplify_eq.
  - destruct (py_index acquisition_list (cursor + Z.of_nat k)) as [t|];
      [|done].
    simpl in Hrun. eapply IH; [exact Hrun|].
    by rewrite Hobs, np_count_true_pixels.
Qed.

(** The cursor and the observations of a state are those of its passes. *)
Definition observing (st : loop_state (Mosaic := Mosaic)) : Prop :=
  time_index st = Z.of_nat (polls st) * stride processing_options
  ∧ observed st = slice_counts (seen_after (polls st)).

Lemma chunk_step_observing st st' :
  step st = Continue st' → observing st → observing st'.
Proof.
  unfold chunk_step. intros Hstep [Hcursor Hobs].
  destruct (status_at (polls st)) as [status|]; [|done].
  case_decide; [done|].
  destruct (time_range _ _ _) as [window|] eqn:Hwindow; [|done].
  destruct (clear_mask_of _) as [mask|] eqn:Hmask.
  - destruct (tally_slices _ _ _ _ _ _) as [[md obs]|] eqn:Ht; [|done].
    simplify_eq/=.
    split; cbn [time_index polls observed seen_after];
      [rewrite Hcursor; lia|].
    rewrite <- Hcursor, Hwindow, Hmask.
    by eapply tally_slices_seen.
  - simplify_eq/=.
    split; cbn [time_index polls observed seen_after];
      [rewrite Hcursor; lia|].
    by rewrite <- Hcursor, Hwindow, Hmask.
Qed.

Lemma chunk_loop_observing fuel :
  ∀ st st', loop fuel st = Some (Exited st') → observing st → observing st'.
Proof.
  induction fuel as [|fuel IH]; intros st st' Hrun Hinv; simpl in Hrun.
  - case_decide; by simplify_eq.
  - case_decide; [|by simplify_eq].
    destruct (step st) as [st1| |] eqn:Hs; [|done..].
    apply (IH st1); [done|]. by eapply chunk_step_observing.
Qed.

(** The passes of a run that leaves the loop by its condition. *)
Lemma exit_passes fuel st :
  0 < stride processing_options →
  loop fuel initial = Some (Exited st) →
  polls st
  = Z.to_nat ((len acquisition_list + stride processing_options - 1)
                `div` stride processing_options).
Proof.
  intros Hpos Hrun.
  destruct (chunk_loop_paced _ _ _ Hrun) as ((Hi1 & Hi2 & Hi3) & Hexit).
  { split; [simpl; lia|]. split; [done|by left]. }
  set (n := stride processing_options) in *.
  set (k := Z.of_nat (polls st)) in *.
  assert (0 ≤ len acquisition_list) by (unfold len; lia).
  assert (k = (len acquisition_list + n - 1) `div` n) as <-; [|unfold k; lia].
  apply (Z.div_unique _ _ _ (len acquisition_list + n - 1 - n * k)).
  - left. destruct Hi3 as [Hz|Hlt].
    + assert (k = 0) by (unfold k; lia). nia.
    + nia.
  - lia.
Qed.

(** X18: the clean pixels of a chunk.  With a positive stride [n], the
    metadata the task returns holds, for every date, the sum of the true
    pixels of the mask slices attributed to that date in the
    [ceil(len / n)] passes of the run, pass [k] attributing the slices of
    the window fetched at cursor [k * n] to the dates from that position on;
    a date no slice is attributed to is not in the metadata. *)
Theorem chunk_metadata_tally fuel time_num chunk_num files path md files' :
  0 < stride processing_options →
  generate_TOOL_chunk status_at get_dataset_by_extent clear_mask_of
    drop_cf_mask run_processing_method processing_options query_id
    acquisition_list fuel time_num chunk_num files
  = Some (Returned (RetPair (Some path) (Some md)), files') →
  ∀ d,
    md !! d
    = date_total
        (slice_counts
           (seen_after
              (Z.to_nat ((len acquisition_list + stride processing_options - 1)
                           `div` stride processing_options))))
        d.
Proof.
  intros Hpos Hrun d.
  destruct (chunk_metadata_total _ _ _ _ _ _ _ _ _ _ _ _ _ _ _ Hrun)
    as (st & Hloop & -> & Htot).
  destruct (chunk_loop_observing _ _ _ Hloop) as [_ Hobs]; [by split|].
  by rewrite Htot, Hobs, (exit_passes fuel st Hpos Hloop).
Qed.

End worker.

(** X10: the table terminates.  For every algorithm of
    [processing_algorithms] the task returns once it has as much fuel as the
    list has acquisitions. *)
Theorem configured_chunk_returns {RawData Mosaic : Type} name options
    status_at get_dataset_by_extent clear_mask_of drop_cf_mask
    run_processing_method query_id acquisition_list fuel time_num chunk_num
    (files : list (string * Mosaic)) :
  Options.processing_algorithms name = Some options →
  (length acquisition_list ≤ fuel)%nat →
  is_Some
    (generate_TOOL_chunk (RawData := RawData) status_at get_dataset_by_extent
       clear_mask_of drop_cf_mask run_processing_method options query_id
       acquisition_list fuel time_num chunk_num files).
Proof.
  intros Hopt Hfuel. apply generate_TOOL_chunk_total.
  - by eapply configured_stride.
  - unfold len. lia.
Qed.

Lemma configured_chunk_returns_witness :
  is_Some
    (generate_TOOL_chunk (Mosaic := Z * Z)
       ChunkExamples.never_cancelled (λ w, w) ChunkExamples.slices_in (λ w, w)
       ChunkExamples.keep_window Options.max_ndvi "q" (ChunkExamples.dates 7)
       7 0 0 []).
Proof.
  apply (configured_chunk_returns "max_ndvi"); [reflexivity|simpl; lia].
Defined.

Lemma missing_row_returns_none_witness :
  generate_TOOL_chunk (Mosaic := Z * Z)
    ChunkMoreExamples.row_gone_at_1 (λ w, w) ChunkExamples.slices_in (λ w, w)
    ChunkExamples.keep_window Options.least_recent "q" (ChunkExamples.dates 3)
    5 0 0 []
  = Some (Returned RetNone, []).
Proof.
  refine (missing_row_returns_none
            ChunkMoreExamples.row_gone_at_1 (λ w, w) ChunkExamples.slices_in
            (λ w, w) ChunkExamples.keep_window Options.least_recent
            "q" (ChunkExamples.dates 3) 1 _ 5 0 0 [] _ _ _ _).
  - vm_compute. reflexivity.
  - vm_compute. reflexivity.
  - vm_compute. reflexivity.
  - lia.
Defined.

Lemma chunk_metadata_dates_witness :
  (3 : Z) ∈ [3; 2; 1].
Proof.
  refine (chunk_metadata_dates (Mosaic := Z * Z)
            ChunkExamples.never_cancelled (λ w, w) ChunkExamples.slices_in
            (λ w, w) ChunkExamples.keep_window Options.most_recent "q"
            [3; 2; 1] 2 0 0 [] _ _ _ 3 _ _).
  - vm_compute. reflexivity.
  - vm_compute. eexists. reflexivity.
Defined.

Lemma chunk_passes_witness :
  ∃ st, ChunkExamples.median_run 7 2 = Some (Exited st)
        ∧ Z.of_nat (length (fetched st)) = (7 + 10000 - 1) `div` 10000.
Proof.
  eexists. split; [vm_compute; reflexivity|].
  refine (proj1 (chunk_passes (Mosaic := Z * Z)
            ChunkExamples.never_cancelled (λ w, w) ChunkExamples.slices_in
            (λ w, w) ChunkExamples.keep_window Options.median_pixel
            (ChunkExamples.dates 7) 2 _ _ _)).
  - reflexivity.
  - vm_compute. reflexivity.
Defined.

Lemma no_mask_returns_empty_witness :
  generate_TOOL_chunk (Mosaic := Z * Z)
    ChunkExamples.never_cancelled (λ w, w) ChunkMoreExamples.no_mask (λ w, w)
    ChunkExamples.keep_window Options.most_recent "q" [3; 2; 1] 3 0 0 []
  = Some (Returned (RetPair None None), []).
Proof.
  refine (no_mask_returns_empty (Mosaic := Z * Z)
            ChunkExamples.never_cancelled (λ w, w) ChunkMoreExamples.no_mask
            (λ w, w) ChunkExamples.keep_window Options.most_recent "q"
            [3; 2; 1] 3 0 0 [] eq_refl (λ w, eq_refl) _ _).
  - intros n. exists "WAIT"%string. split; [reflexivity|discriminate].
  - vm_compute. lia.
Defined.

Lemma chunk_metadata_tally_witness :
  ({[ 0 := 2%nat; 1 := 3%nat; 2 := 4%nat ]} : acquisition_map) !! 1
  = Some 3%nat.
Proof.
  refine (eq_trans
            (chunk_metadata_tally (Mosaic := Z * Z)
               ChunkExamples.never_cancelled (λ w, w)
               ChunkMoreExamples.overlapping (λ w, w)
               ChunkExamples.keep_window Options.least_recent "q" [0; 1; 2]
               3 0 0 [] "/ui_results_temp/q/geo_chunk_0_0.nc"
               {[ 0 := 2%nat; 1 := 3%nat; 2 := 4%nat ]}
               [("/ui_results_temp/q/geo_chunk_0_0.nc"%string, (2, 2))]
               eq_refl _ 1) _).
  - vm_compute. reflexivity.
  - vm_compute. reflexivity.
Defined.

End ChunkMoreFacts.


(** * Facts about the scratch paths and the metadata lists *)

Module TextFacts.

Import Text.

Lemma string_app_cons c (a b : string) : String c a +:+ b = String c (a +:+ b).
Proof. reflexivity. Qed.

Lemma string_app_nil (b : string) : "" +:+ b = b.
Proof. reflexivity. Qed.

Ltac app_simpl :=
  rewrite ?string_app_cons, ?string_app_nil; simpl;
  rewrite ?string_app_cons, ?string_app_nil.

Lemma string_app_assoc (a b c : string) : (a +:+ b) +:+ c = a +:+ (b +:+ c).
Proof. induction a as [|x a IH]; [done|]. app_simpl. by f_equal. Qed.

Lemma string_app_empty (a b : string) : a +:+ b = "" → b = "".
Proof. by destruct a. Qed.

Lemma contains_app ch a b :
  contains ch (a +:+ b) = contains ch a || contains ch b.
Proof.
  induction a as [|x a IH]; app_simpl; [done|]. by rewrite IH, orb_assoc.
Qed.

Lemma digits_contains ch s :
  digit ch = false → digits s = true → contains ch s = false.
Proof.
  intros Hch. induction s as [|c s IH]; simpl; [done|].
  intros [Hc Hs]%andb_true_iff. rewrite (IH Hs), orb_false_r.
  apply bool_decide_eq_false. intros ->. congruence.
Qed.

Lemma pretty_N_char_digit x : digit (pretty_N_char x) = true.
Proof.
  destruct x as [|p]; [reflexivity|].
  do 4 (try destruct p as [p|p|]); reflexivity.
Qed.

Lemma pretty_N_go_digits x s :
  digits s = true → digits (pretty_N_go x s) = true.
Proof.
  revert s. induction (N.lt_wf_0 x) as [x _ IH]; intros s Hs.
  destruct (decide (x = 0%N)) as [->|Hx]; [by rewrite pretty_N_go_0|].
  rewrite pretty_N_go_step by lia. apply IH; [apply N.div_lt; lia|].
  simpl. by rewrite pretty_N_char_digit.
Qed.

Lemma pretty_N_go_nonempty x s : s ≠ "" → pretty_N_go x s ≠ "".
Proof.
  revert s. induction (N.lt_wf_0 x) as [x _ IH]; intros s Hs.
  destruct (decide (x = 0%N)) as [->|Hx]; [by rewrite pretty_N_go_0|].
  rewrite pretty_N_go_step by lia. apply IH; [apply N.div_lt; lia|done].
Qed.

Lemma pretty_nat_digits (n : nat) : digits (pretty n) = true.
Proof.
  unfold pretty, pretty_nat, pretty, pretty_N.
  case_decide; [done|]. by apply pretty_N_go_digits.
Qed.

Lemma pretty_nat_nonempty (n : nat) : pretty n ≠ "".
Proof.
  unfold pretty, pretty_nat, pretty, pretty_N.
  case_decide as Hn; [done|].
  rewrite pretty_N_go_step by lia. by apply pretty_N_go_nonempty.
Qed.

Lemma pretty_nat_plain ch (n : nat) :
  digit ch = false → contains ch (pretty n) = false.
Proof. intros Hch. apply digits_contains, pretty_nat_digits. done. Qed.

(** Two texts cut at the first separator agree on both sides. *)
Lemma app_sep_inj sep a a' b b' :
  contains sep a = false → contains sep a' = false →
  a +:+ String sep b = a' +:+ String sep b' → a = a' ∧ b = b'.
Proof.
  revert a'. induction a as [|c a IH]; intros [|c' a'] Ha Ha' Heq;
    rewrite ?string_app_cons, ?string_app_nil in Heq; simpl in *.
  - by simplify_eq.
  - injection Heq as <- _. by rewrite bool_decide_eq_true_2 in Ha'.
  - injection Heq as -> _. by rewrite bool_decide_eq_true_2 in Ha.
  - injection Heq as -> Heq.
    apply orb_false_iff in Ha as [_ Ha]. apply orb_false_iff in Ha' as [_ Ha'].
    by destruct (IH a' Ha Ha' Heq) as [-> ->].
Qed.

(** ** [rstrip] and [split] *)

Lemma py_split_nonempty sep s : py_split sep s ≠ [].
Proof.
  induction s as [|c s IH]; simpl; [done|].
  case_decide; [done|]. by destruct (py_split sep s).
Qed.

Lemma py_split_plain sep s : contains sep s = false → py_split sep s = [s].
Proof.
  induction s as [|c s IH]; simpl; [done|].
  intros [Hc Hs]%orb_false_iff. apply bool_decide_eq_false in Hc.
  rewrite decide_False by done. by rewrite (IH Hs).
Qed.

Lemma py_split_app sep a b :
  contains sep a = false →
  py_split sep (a +:+ String sep b) = a :: py_split sep b.
Proof.
  induction a as [|c a IH]; app_simpl.
  - intros _. by rewrite decide_True.
  - intros [Hc Ha]%orb_false_iff. apply bool_decide_eq_false in Hc.
    rewrite decide_False by done. by rewrite (IH Ha).
Qed.

Lemma py_rstrip_sep ch s : py_rstrip ch (s +:+ String ch "") = py_rstrip ch s.
Proof.
  induction s as [|c s IH]; app_simpl; [by rewrite decide_True|by rewrite IH].
Qed.

Lemma py_rstrip_app ch a b :
  py_rstrip ch b ≠ "" → py_rstrip ch (a +:+ b) = a +:+ py_rstrip ch b.
Proof.
  intros Hb. induction a as [|c a IH]; app_simpl; [done|]. rewrite IH.
  destruct (a +:+ py_rstrip ch b) eqn:E; [|done].
  by apply string_app_empty in E.
Qed.

Lemma py_rstrip_plain ch s : contains ch s = false → py_rstrip ch s = s.
Proof.
  induction s as [|c s IH]; simpl; [done|].
  intros [Hc Hs]%orb_false_iff. apply bool_decide_eq_false in Hc.
  rewrite (IH Hs). destruct s; [by rewrite decide_False|done].
Qed.

(** The items with a separator after each, and between them. *)
Definition flat (sep : Ascii.ascii) (items : list string) : string :=
  foldr (λ item rest, item +:+ String sep rest) "" items.

Fixpoint join (sep : Ascii.ascii) (items : list string) : string :=
  match items with
  | [] => ""
  | [item] => item
  | item :: rest => item +:+ String sep (join sep rest)
  end.

Lemma foldl_flat sep field items :
  foldl (λ acc item, acc +:+ (item +:+ String sep "")) field items
  = field +:+ flat sep items.
Proof.
  revert field. induction items as [|x items IH]; intros field.
  - simpl. induction field as [|c f IHf]; app_simpl; [done|by rewrite <- IHf].
  - cbn [foldl]. rewrite IH, !string_app_assoc. done.
Qed.

Lemma join_nonempty sep items last_item :
  last items = Some last_item → last_item ≠ "" → join sep items ≠ "".
Proof.
  destruct items as [|x [|y rest]]; simpl; [done|congruence|].
  intros _ _ E. by apply string_app_empty in E.
Qed.

Lemma py_split_join sep items :
  items ≠ [] → Forall (λ item, contains sep item = false) items →
  py_split sep (join sep items) = items.
Proof.
  induction items as [|x [|y rest] IH]; [done|..]; intros _ Hplain.
  - apply py_split_plain. by inversion Hplain.
  - inversion Hplain as [|?? Hx Hrest]; subst.
    change (join sep (x :: y :: rest))
      with (x +:+ String sep (join sep (y :: rest))).
    rewrite (py_split_app _ _ _ Hx), IH; done.
Qed.

Lemma py_rstrip_flat sep items last_item :
  Forall (λ item, contains sep item = false) items →
  last items = Some last_item → last_item ≠ "" →
  py_rstrip sep (flat sep items) = join sep items.
Proof.
  induction items as [|x [|y rest] IH]; [done|..]; intros Hplain Hlast Hne.
  - inversion Hplain; subst. simpl.
    by rewrite py_rstrip_sep, py_rstrip_plain.
  - inversion Hplain as [|?? Hx Hrest]; subst.
    assert (Hj : join sep (y :: rest) ≠ "") by by eapply join_nonempty.
    specialize (IH Hrest Hlast Hne).
    change (flat sep (x :: y :: rest))
      with (x +:+ String sep (flat sep (y :: rest))).
    change (join sep (x :: y :: rest))
      with (x +:+ String sep (join sep (y :: rest))).
    assert (Hs : py_rstrip sep (String sep (flat sep (y :: rest)))
                 = String sep (join sep (y :: rest))).
    { change (py_rstrip sep (String sep (flat sep (y :: rest))))
        with (match py_rstrip sep (flat sep (y :: rest)) with
              | EmptyString =>
                  if decide (sep = sep) then EmptyString
                  else String sep EmptyString
              | kept => String sep kept
              end).
      rewrite IH. by destruct (join sep (y :: rest)). }
    rewrite py_rstrip_app; rewrite Hs; done.
Qed.

(** X11: the scratch file of a chunk determines the chunk: within one query
    two chunk tasks write to the same path only if they have the same time
    range index and the same geographic chunk index. *)
Theorem geo_path_chunk query_id time_num chunk_num time_num' chunk_num' :
  Chunk.geo_path query_id time_num chunk_num
  = Chunk.geo_path query_id time_num' chunk_num' →
  time_num = time_num' ∧ chunk_num = chunk_num'.
Proof.
  unfold Chunk.geo_path. intros H.
  do 3 apply (inj (String.app _)) in H.
  apply app_sep_inj in H as [Ht H]; [|by apply pretty_nat_plain..].
  apply app_sep_inj in H as [Hc _]; [|by apply pretty_nat_plain..].
  split; by apply (inj pretty).
Qed.

Lemma geo_path_chunk_witness :
  Chunk.geo_path "q" 1 12 = Chunk.geo_path "q" 1 12 ∧ (1 = 1 ∧ 12 = 12)%nat.
Proof.
  assert (H : Chunk.geo_path "q" 1 12 = Chunk.geo_path "q" 1 12)
    by reflexivity.
  split; [exact H|]. exact (geo_path_chunk "q" 1 12 1 12 H).
Defined.

(** X12: the reader of a list field returns the items that were appended to
    it: after [field += item + ","] for each item of a non-empty list, with
    no comma inside an item and a last item that is not empty,
    [field.rstrip(',').split(',')] is that list. *)
Theorem as_list_round_trip (items : list string) (last_item : string) :
  Forall (λ item, contains comma item = false) items →
  last items = Some last_item → last_item ≠ "" →
  py_split comma
    (py_rstrip comma (foldl (λ field item, field +:+ (item +:+ ",")) "" items))
  = items.
Proof.
  intros Hplain Hlast Hne.
  change (foldl _ "" items)
    with (foldl (λ acc item, acc +:+ (item +:+ String comma "")) "" items).
  rewrite (foldl_flat comma "" items), string_app_nil.
  rewrite (py_rstrip_flat _ _ _ Hplain Hlast Hne).
  apply py_split_join; [|done]. by intros ->.
Qed.

Lemma as_list_round_trip_witness :
  Forall (λ item, contains comma item = false) ["01/02/2016"; ""; "12/25/2015"]
  ∧ py_split comma
      (py_rstrip comma
         (foldl (λ field item, field +:+ (item +:+ ",")) ""
            ["01/02/2016"; ""; "12/25/2015"]))
    = ["01/02/2016"; ""; "12/25/2015"].
Proof.
  assert (H : Forall (λ item, contains comma item = false)
                ["01/02/2016"; ""; "12/25/2015"])
    by (repeat constructor).
  split; [exact H|].
  refine (as_list_round_trip _ "12/25/2015" H _ _); [reflexivity|done].
Defined.

(** An empty last item is lost, and with it every empty item before it. *)
Example as_list_drops_empty_tail :
  py_split comma
    (py_rstrip comma (foldl (λ field item, field +:+ (item +:+ ",")) ""
                        ["a"; ""; ""]))
  = ["a"].
Proof. reflexivity. Qed.

End TextFacts.


(** * Facts about the metadata row *)

Module MetadataFacts.

Import Text TextFacts MetadataRow.

Lemma string_app_nil_r (a : string) : a +:+ "" = a.
Proof. induction a as [|c a IH]; app_simpl; [done|by rewrite IH]. Qed.

(** What the reader makes of a field in the writer's format. *)
Lemma read_flat (items : list string) :
  items ≠ [] →
  Forall (λ item, contains comma item = false ∧ item ≠ "") items →
  py_split comma (py_rstrip comma (flat comma items)) = items.
Proof.
  intros Hne Hitems.
  destruct (last items) as [last_item|] eqn:Hlast;
    [|by apply last_None in Hlast].
  assert (Hin : last_item ∈ items) by by apply last_Some_elem_of.
  rewrite Forall_forall in Hitems.
  rewrite (py_rstrip_flat comma items last_item).
  - apply py_split_join; [done|]. apply Forall_forall. intros x Hx.
    by apply Hitems.
  - apply Forall_forall. intros x Hx. by apply Hitems.
  - done.
  - by apply Hitems.
Qed.

Lemma strictly_sorted (l : list Z) :
  StronglySorted Z.le l → NoDup l → StronglySorted Z.lt l.
Proof.
  induction 1 as [|x l Hl IH Hx]; intros Hnd; [constructor|].
  apply NoDup_cons in Hnd as [Hnot Hnd]. constructor; [by apply IH|].
  rewrite Forall_forall in Hx. apply Forall_forall. intros y Hy.
  specialize (Hx y Hy). assert (x ≠ y) by (intros ->; done). lia.
Qed.

Lemma sorted_dates_elem_of am d : d ∈ sorted_dates am ↔ is_Some (am !! d).
Proof.
  unfold sorted_dates. rewrite merge_sort_Permutation, list_elem_of_fmap.
  split.
  - intros ([d' n] & -> & Hin). apply elem_of_map_to_list in Hin. by exists n.
  - intros [n Hn]. exists (d, n). split; [done|].
    by apply elem_of_map_to_list.
Qed.

Lemma sorted_dates_length am : length (sorted_dates am) = size am.
Proof.
  unfold sorted_dates.
  by rewrite merge_sort_Permutation, length_fmap, length_map_to_list.
Qed.

Lemma zip3_fmap {A B C D} (f : A → B) (g : A → C) (h : A → D) (l : list A) :
  zip3 (f <$> l) (g <$> l) (h <$> l) = (λ x, (f x, g x, h x)) <$> l.
Proof.
  unfold zip3. induction l as [|x l IH]; [done|]. cbn. by f_equal.
Qed.

Section populate.

Variable strftime : Z → string.
Variable str_percentage : nat → Z → string.

Lemma populate_fields am meta dates :
  let m := foldl (append_date strftime str_percentage am) meta dates in
  pixel_count m = pixel_count meta
  ∧ acquisition_list m
    = acquisition_list meta +:+ flat comma (strftime <$> dates)
  ∧ clean_pixels_per_acquisition m
    = clean_pixels_per_acquisition meta
      +:+ flat comma ((λ d, pretty (am !!! d)) <$> dates)
  ∧ clean_pixel_percentages_per_acquisition m
    = clean_pixel_percentages_per_acquisition meta
      +:+ flat comma
            ((λ d, str_percentage (am !!! d) (pixel_count meta)) <$> dates).
Proof.
  revert meta. induction dates as [|d dates IH]; intros meta.
  - cbn. by rewrite !string_app_nil_r.
  - cbn [foldl]. cbv zeta in IH |- *.
    destruct (IH (append_date strftime str_percentage am meta d))
      as (Hp & Ha & Hc & Hq).
    rewrite Hp, Ha, Hc, Hq. cbn [append_date pixel_count acquisition_list
      clean_pixels_per_acquisition clean_pixel_percentages_per_acquisition].
    rewrite !string_app_assoc. done.
Qed.

(** X13: the table the row gives back is the one the task wrote: after the
    loop of lines 286-291 on a row with empty list fields and a non-empty
    acquisition map, [acquisitions_dates_with_pixels_percentages] yields, for
    each date from the latest to the earliest, the formatted date, the
    decimal count of that date and its percentage, provided the formatted
    dates and percentages are non-empty and hold no comma. *)
Theorem populated_rows am meta :
  am ≠ ∅ →
  (∀ d, contains comma (strftime d) = false ∧ strftime d ≠ "") →
  (∀ n p, contains comma (str_percentage n p) = false
          ∧ str_percentage n p ≠ "") →
  acquisition_list meta = "" →
  clean_pixels_per_acquisition meta = "" →
  clean_pixel_percentages_per_acquisition meta = "" →
  acquisitions_dates_with_pixels_percentages
    (populate strftime str_percentage am meta)
  = row_of strftime str_percentage am (pixel_count meta)
      <$> reverse (sorted_dates am).
Proof.
  intros Ham Hdate Hpct Ha Hc Hq.
  unfold acquisitions_dates_with_pixels_percentages, acquisition_list_as_list,
    clean_pixels_list_as_list, clean_pixels_percentages_as_list, populate.
  set (dates := reverse (sorted_dates am)).
  assert (Hne : dates ≠ []).
  { intros E. apply Ham, map_size_empty_iff.
    rewrite <- sorted_dates_length, <- (length_reverse (sorted_dates am)).
    fold dates. by rewrite E. }
  destruct (populate_fields am meta dates) as (_ & -> & -> & ->).
  rewrite Ha, Hc, Hq, !string_app_nil.
  rewrite !read_flat.
  - apply zip3_fmap.
  - by destruct dates.
  - apply Forall_fmap, Forall_forall. intros d _. apply Hpct.
  - by destruct dates.
  - apply Forall_fmap, Forall_forall. intros d _. split.
    + by apply pretty_nat_plain.
    + apply pretty_nat_nonempty.
  - by destruct dates.
  - apply Forall_fmap, Forall_forall. intros d _. apply Hdate.
Qed.

(** X14: the dates are written from the latest to the earliest, each date of
    the acquisition map once. *)
Theorem dates_latest_first am :
  StronglySorted (flip Z.lt) (reverse (sorted_dates am))
  ∧ (∀ d, d ∈ reverse (sorted_dates am) ↔ is_Some (am !! d))
  ∧ length (reverse (sorted_dates am)) = size am.
Proof.
  split; [|split].
  - apply Sorted_StronglySorted; [intros x y z; unfold flip; lia|].
    apply Sorted_reverse, StronglySorted_Sorted, strictly_sorted.
    + apply StronglySorted_merge_sort; apply _.
    + unfold sorted_dates. rewrite merge_sort_Permutation.
      apply NoDup_fst_map_to_list.
  - intros d. by rewrite elem_of_reverse, sorted_dates_elem_of.
  - by rewrite length_reverse, sorted_dates_length.
Qed.

(** X15: the table is never empty, since [split] always yields an item: a
    row to which no date was appended reads as one row of three empty
    strings. *)
Theorem table_never_empty :
  (∀ self, (0 < length (acquisitions_dates_with_pixels_percentages self))%nat)
  ∧ (∀ pixels,
       acquisitions_dates_with_pixels_percentages
         (populate strftime str_percentage ∅ (MkMetadata pixels "" "" ""))
       = [("", "", "")]).
Proof.
  split.
  - intros self.
    unfold acquisitions_dates_with_pixels_percentages,
      acquisition_list_as_list, clean_pixels_list_as_list,
      clean_pixels_percentages_as_list, zip3.
    pose proof (py_split_nonempty comma
                  (py_rstrip comma (acquisition_list self))).
    pose proof (py_split_nonempty comma
                  (py_rstrip comma (clean_pixels_per_acquisition self))).
    pose proof (py_split_nonempty comma
                  (py_rstrip comma
                     (clean_pixel_percentages_per_acquisition self))).
    destruct (py_split comma (py_rstrip comma (acquisition_list self)));
      [done|].
    destruct (py_split comma
                (py_rstrip comma (clean_pixels_per_acquisition self)));
      [done|].
    destruct (py_split comma
                (py_rstrip comma
                   (clean_pixel_percentages_per_acquisition self)));
      [done|].
    simpl. lia.
  - intros pixels. unfold populate, sorted_dates.
    rewrite map_to_list_empty. reflexivity.
Qed.

End populate.

Lemma day_number_plain d :
  contains comma (MetadataExamples.day_number d) = false
  ∧ MetadataExamples.day_number d ≠ "".
Proof.
  unfold MetadataExamples.day_number. split; [|done].
  rewrite contains_app. by rewrite pretty_nat_plain.
Qed.

Lemma percent_plain n p :
  contains comma (MetadataExamples.percent n p) = false
  ∧ MetadataExamples.percent n p ≠ "".
Proof.
  unfold MetadataExamples.percent. split.
  - rewrite contains_app. by rewrite pretty_nat_plain.
  - intros E. by apply string_app_empty in E.
Qed.

Lemma populated_rows_witness :
  MetadataExamples.two_dates ≠ ∅
  ∧ acquisitions_dates_with_pixels_percentages
      (populate MetadataExamples.day_number MetadataExamples.percent
         MetadataExamples.two_dates (MkMetadata 100 "" "" ""))
    = [("d1", "7", "7.0"); ("d0", "12", "12.0")].
Proof.
  assert (H : MetadataExamples.two_dates ≠ ∅).
  { intros E. apply (f_equal (λ m : acquisition_map, m !! 0)) in E.
    vm_compute in E. discriminate E. }
  split; [exact H|].
  exact (populated_rows MetadataExamples.day_number MetadataExamples.percent
           MetadataExamples.two_dates (MkMetadata 100 "" "" "") H
           day_number_plain percent_plain eq_refl eq_refl eq_refl).
Defined.

End MetadataFacts.


(** * More facts about the query task *)

Module OrchestratorMoreFacts.

Import Orchestrator OrchestratorFacts.

(** ** The scratch directory *)

(** Whether the scratch directory exists after the events, starting from
    [present]; [None] when [os.mkdir] finds the directory or [shutil.rmtree]
    misses it, which both raise. *)
Fixpoint scratch_after (present : bool) (events : list event) : option bool :=
  match events with
  | [] => Some present
  | Mkdir :: rest => if present then None else scratch_after true rest
  | Rmtree :: rest => if present then scratch_after false rest else None
  | _ :: rest => scratch_after present rest
  end.

Lemma scratch_after_app present es1 es2 :
  scratch_after present (es1 ++ es2)
  = scratch_after present es1 ≫= λ present', scratch_after present' es2.
Proof.
  revert present. induction es1 as [|e es1 IH]; intros present; [done|].
  destruct e; simpl; try apply IH; destruct present; simpl; try done; apply IH.
Qed.

Lemma scratch_after_planned env :
  scratch_after (scratch_exists env) (planned env) = Some true.
Proof. unfold planned. by destruct (scratch_exists env). Qed.

Lemma scratch_after_error present result message :
  scratch_after present (error_with_message present result message)
  = Some false.
Proof. unfold error_with_message. by destruct present. Qed.

(** X16: a run that created the ledger row never leaves the scratch
    directory behind, whether it returns or raises; and it never makes a
    directory that exists or removes one that is missing. *)
Theorem scratch_never_left env :
  queries_count env = 1%nat → result_type_found env = true →
  scratch_after (scratch_exists env) (trace (create_cloudfree_mosaic env))
  = Some false.
Proof.
  intros Hone Hfound.
  shapes env.
  - lia.
  - destruct Hunstarted; congruence.
  - apply scratch_after_error.
  - apply scratch_after_error.
  - apply scratch_after_error.
  - rewrite scratch_after_app, scratch_after_planned. reflexivity.
Qed.

Lemma scratch_never_left_witness :
  scratch_after (scratch_exists OrchestratorExamples.cancelled)
    (trace (create_cloudfree_mosaic OrchestratorExamples.cancelled))
  = Some false.
Proof.
  exact (scratch_never_left OrchestratorExamples.cancelled eq_refl eq_refl).
Defined.

(** ** How a run ends *)

Definition unsaved (e : event) : Prop :=
  match e with
  | ResultSaved _ => False
  | _ => True
  end.

Lemma error_settles pre scratch result message :
  Forall unsaved pre →
  ∃ pre', pre ++ error_with_message scratch result message
          = pre' ++ [ResultSaved (set_error result message)]
          ∧ Forall unsaved pre'.
Proof.
  intros Hpre. exists (pre ++ if scratch then [Rmtree] else []).
  unfold error_with_message. rewrite app_assoc. split; [done|].
  apply Forall_app. split; [done|]. destruct scratch; by repeat constructor.
Qed.

(** X17: a run that created the ledger row saves it once, as its last
    event, with status ERROR: with the generic message when there is no
    scene metadata, and the task returns; with the message for a query
    without acquisitions when there are none, and the task returns; and
    otherwise with the generic message, the exception being raised again.
    No run saves status OK. *)
Theorem ledger_settled env :
  queries_count env = 1%nat → result_type_found env = true →
  let r := create_cloudfree_mosaic env in
  ∃ pre s,
    trace r = pre ++ [ResultSaved s]
    ∧ Forall unsaved pre
    ∧ status s = "ERROR"%string
    ∧ (scene_metadata env = None ∧ result_of r = Returns
       ∧ result_path s = generic_message
       ∨ is_Some (scene_metadata env) ∧ acquisitions env = []
         ∧ result_of r = Returns ∧ result_path s = no_acquisitions_message
       ∨ is_Some (scene_metadata env) ∧ acquisitions env ≠ []
         ∧ result_of r = Raises ∧ result_path s = generic_message).
Proof.
  intros Hone Hfound. cbv zeta.
  shapes env.
  - lia.
  - destruct Hunstarted; congruence.
  - destruct (error_settles [ResultCreated generate_result]
                (scratch_exists env) generate_result generic_message)
      as (pre & Hpre & Hun); [by repeat constructor|].
    exists pre, (set_error generate_result generic_message).
    split; [exact Hpre|]. split; [done|]. split; [done|]. by left.
  - destruct (error_settles [ResultCreated generate_result; MetadataCreated]
                (scratch_exists env) generate_result no_acquisitions_message)
      as (pre & Hpre & Hun); [by repeat constructor|].
    exists pre, (set_error generate_result no_acquisitions_message).
    split; [exact Hpre|]. split; [done|]. split; [done|]. right. by left.
  - destruct (error_settles [ResultCreated generate_result; MetadataCreated]
                (scratch_exists env) generate_result generic_message)
      as (pre & Hpre & Hun); [by repeat constructor|].
    exists pre, (set_error generate_result generic_message).
    split; [exact Hpre|]. split; [done|]. split; [done|]. right. by right.
  - destruct (error_settles (planned env) true (planned_result env)
                generic_message) as (pre & Hpre & Hun).
    { unfold planned. destruct (scratch_exists env); by repeat constructor. }
    exists pre, (set_error (planned_result env) generic_message).
    split; [exact Hpre|]. split; [done|]. split; [done|]. right. by right.
Qed.

Lemma ledger_settled_witness :
  ∃ pre s,
    trace (create_cloudfree_mosaic OrchestratorExamples.scenario)
    = pre ++ [ResultSaved s]
    ∧ status s = "ERROR"%string.
Proof.
  destruct (ledger_settled OrchestratorExamples.scenario eq_refl eq_refl)
    as (pre & s & Htr & _ & Hs & _).
  exists pre, s. by split.
Defined.

End OrchestratorMoreFacts.
